(** * quimb.gen.rand: random matrices and random quantum states

    A shallow embedding of [quimb/gen/rand.py].

    Conventions of the embedding.
    - A numpy [complex128] entry is an exact complex number over the reals,
      or [NaN], the value numpy's elementwise division gives for [0/0].
      Rounding is not modelled: every equation below is one of exact
      arithmetic.
    - A Python [float] is a real number; a Python [int] is in [Z].
    - The process-wide generator [np.random] is an explicit state that is
      threaded through every call, together with Python's exceptions, by
      the monad [M].
    - [np.linalg.qr] and [scipy.sparse.random] are libraries outside the
      repository: they are variables of the sections that use them. *)

From Stdlib Require Import Reals Lra Lia ZArith Bool String List.
Import ListNotations.
Local Open Scope R_scope.

(** ** Complex numbers *)

Record C : Type := mkC { Re : R; Im : R }.

Definition C0 : C := mkC 0 0.
Definition Cplus (a b : C) : C := mkC (Re a + Re b) (Im a + Im b).
Definition Cmult (a b : C) : C :=
  mkC (Re a * Re b - Im a * Im b) (Re a * Im b + Im a * Re b).
Definition Cconj (a : C) : C := mkC (Re a) (- Im a).
Definition Cnorm2 (a : C) : R := Re a * Re a + Im a * Im a.
Definition Cmod (a : C) : R := sqrt (Cnorm2 a).
Definition Cdiv (a b : C) : C :=
  mkC ((Re a * Re b + Im a * Im b) / Cnorm2 b)
      ((Im a * Re b - Re a * Im b) / Cnorm2 b).

Definition C_eq0_dec (z : C) : {z = C0} + {z <> C0}.
Proof.
  destruct z as [a b].
  destruct (Req_dec_T a 0) as [-> | Ha].
  - destruct (Req_dec_T b 0) as [-> | Hb].
    + left; reflexivity.
    + right; intros H; apply Hb; injection H; auto.
  - right; intros H; apply Ha; injection H; auto.
Defined.

(** ** Array entries: a complex number or numpy's [nan] *)

Inductive cnum : Type :=
| Fin (z : C)
| NaN.

Definition creal (r : R) : cnum := Fin (mkC r 0).
Definition cadd (x y : cnum) : cnum :=
  match x, y with Fin a, Fin b => Fin (Cplus a b) | _, _ => NaN end.
Definition cmul (x y : cnum) : cnum :=
  match x, y with Fin a, Fin b => Fin (Cmult a b) | _, _ => NaN end.
Definition cconj (x : cnum) : cnum :=
  match x with Fin a => Fin (Cconj a) | NaN => NaN end.
(** [np.abs]: the modulus, a real entry. *)
Definition cabs (x : cnum) : cnum :=
  match x with Fin a => creal (Cmod a) | NaN => NaN end.
(** Elementwise [/] of numpy: a zero divisor makes the entry not a number
    (numpy gives [nan] for [0/0]; the infinities it gives for [x/0] with
    [x <> 0] are not told apart from it here). *)
Definition cdiv (x y : cnum) : cnum :=
  match x, y with
  | Fin a, Fin b => if C_eq0_dec b then NaN else Fin (Cdiv a b)
  | _, _ => NaN
  end.

(** ** Python exceptions and the global generator *)

Inductive exn : Type :=
| TypeError
| ValueError
| ZeroDivisionError
| IndexError
| UnboundLocalError.

Inductive result (A : Type) : Type :=
| Ok (a : A)
| Raise (e : exn).
Arguments Ok {A} a.
Arguments Raise {A} e.

(** One step of the generator: what the next call returns, whichever
    distribution it asks for. [uniform] is a draw of [np.random.rand], so
    it lies in [[0, 1)]. *)
Record draw : Type := mkDraw {
  normal : R;
  uniform : R;
  pick : nat;
  uniform_range : 0 <= uniform < 1
}.

Record rng : Type := mkRng { draws : nat -> draw; cursor : nat }.

Definition advance (k : nat) (g : rng) : rng :=
  mkRng (draws g) (cursor g + k).

Definition M (A : Type) : Type := rng -> result (A * rng).

Definition ret {A} (a : A) : M A := fun g => Ok (a, g).
Definition raise {A} (e : exn) : M A := fun _ => Raise e.
Definition bind {A B} (c : M A) (k : A -> M B) : M B :=
  fun g => match c g with
           | Ok (a, g') => k a g'
           | Raise e => Raise e
           end.

Declare Scope py_scope.
Delimit Scope py_scope with py.
Notation "x <- c ;; k" := (bind c (fun x => k))
  (at level 61, c at next level, right associativity) : py_scope.
Notation "' p <- c ;; k" := (bind c (fun x => let 'p := x in k))
  (at level 61, p pattern, c at next level, right associativity) : py_scope.
Local Open Scope py_scope.

(** [np.random.randn(n)]: [n] normal draws, in order. *)
Definition randn1 (n : nat) : M (list R) :=
  fun g => Ok (map (fun k => normal (draws g (cursor g + k)%nat)) (seq 0 n),
               advance n g).

(** [np.random.randn(r, c)]: an [r] by [c] array filled row by row; a
    negative dimension is a [ValueError]. *)
Definition randn2 (r c : Z) : M (list (list R)) :=
  fun g =>
    if ((r <? 0) || (c <? 0))%Z then Raise ValueError
    else
      let nr := Z.to_nat r in
      let nc := Z.to_nat c in
      Ok (map (fun i =>
                 map (fun j => normal (draws g (cursor g + i * nc + j)%nat))
                     (seq 0 nc))
              (seq 0 nr),
          advance (nr * nc) g).

(** [np.random.rand()]: one uniform draw of [[0, 1)]. *)
Definition rand : M R :=
  fun g => Ok (uniform (draws g (cursor g)), advance 1 g).

(** [np.random.randint(low, high)]: an integer of [[low, high)]; an empty
    range is a [ValueError]. *)
Definition randint (low high : Z) : M Z :=
  fun g =>
    if (low <? high)%Z
    then Ok ((low + Z.of_nat (pick (draws g (cursor g))) mod (high - low))%Z,
             advance 1 g)
    else Raise ValueError.

(** ** Matrices *)

(** A dense array is the list of its rows. A sparse matrix is its shape
    and its stored entries, in storage order; an entry that is not stored
    is zero, and entries stored twice at one place add up. *)
Inductive mat : Type :=
| Dense (a : list (list cnum))
| Sparse (nr nc : Z) (t : list (nat * nat * cnum)).

Definition zip_with {A B D} (f : A -> B -> D) (l : list A) (l' : list B)
  : list D :=
  map (fun p => f (fst p) (snd p)) (combine l l').

(** [a + 1.0j * b] on two real arrays. *)
Definition complex_of (a b : R) : cnum := Fin (mkC a b).

Definition stored (t : list (nat * nat * cnum)) (i j : nat) : cnum :=
  fold_right
    (fun e acc =>
       match e with
       | (i', j', v) =>
           if (Nat.eqb i i' && Nat.eqb j j')%bool then cadd v acc else acc
       end)
    (creal 0) t.

(** The entry of a matrix at row [i] and column [j] (inside its shape). *)
Definition entry (m : mat) (i j : nat) : cnum :=
  match m with
  | Dense a => nth j (nth i a []) NaN
  | Sparse _ _ t => stored t i j
  end.

(** [mat / x] for a scalar [x]: every entry of a dense array, every stored
    entry of a sparse one. The callers below divide a sparse matrix this
    way by the constants [2 ** 1.5] and [2] only; the division in place
    [mat /= x] of [rand_matrix], which can meet a zero, is [mat_idiv]. *)
Definition mat_div (m : mat) (x : cnum) : mat :=
  match m with
  | Dense a => Dense (map (map (fun v => cdiv v x)) a)
  | Sparse nr nc t =>
      Sparse nr nc (map (fun e => match e with (i, j, v) => (i, j, cdiv v x) end) t)
  end.

Definition ncols (a : list (list cnum)) : nat :=
  match a with [] => 0%nat | r :: _ => length r end.

Definition to_dense (nr nc : Z) (t : list (nat * nat * cnum))
  : list (list cnum) :=
  map (fun i => map (fun j => stored t i j) (seq 0 (Z.to_nat nc)))
      (seq 0 (Z.to_nat nr)).

(** [m.H]: the conjugate transpose. *)
Definition mat_H (m : mat) : mat :=
  match m with
  | Dense a =>
      Dense (map (fun j => map (fun row => cconj (nth j row NaN)) a)
                 (seq 0 (ncols a)))
  | Sparse nr nc t =>
      Sparse nc nr
        (map (fun e => match e with (i, j, v) => (j, i, cconj v) end) t)
  end.

Definition dense_add (a b : list (list cnum)) : list (list cnum) :=
  zip_with (zip_with cadd) a b.

(** [a + b] and [a += b] on matrices of one shape. *)
Definition mat_add (m1 m2 : mat) : mat :=
  match m1, m2 with
  | Dense a, Dense b => Dense (dense_add a b)
  | Sparse nr nc t1, Sparse _ _ t2 => Sparse nr nc (t1 ++ t2)
  | Dense a, Sparse nr nc t => Dense (dense_add a (to_dense nr nc t))
  | Sparse nr nc t, Dense b => Dense (dense_add (to_dense nr nc t) b)
  end.

Definition csum (l : list cnum) : cnum := fold_right cadd (creal 0) l.

Definition dense_mul (a b : list (list cnum)) : list (list cnum) :=
  map (fun row =>
         map (fun j => csum (zip_with cmul row (map (fun r => nth j r NaN) b)))
             (seq 0 (ncols b)))
      a.

(** [a @ b]: the matrix product. *)
Definition mat_mul (m1 m2 : mat) : mat :=
  match m1, m2 with
  | Dense a, Dense b => Dense (dense_mul a b)
  | Sparse nr _ t1, Sparse _ nc t2 =>
      Sparse nr nc
        (flat_map
           (fun e1 =>
              match e1 with
              | (i, k, v) =>
                  flat_map
                    (fun e2 =>
                       match e2 with
                       | (k', j, w) =>
                           if Nat.eqb k k' then [(i, j, cmul v w)] else []
                       end)
                    t2
              end)
           t1)
  | Dense a, Sparse nr nc t => Dense (dense_mul a (to_dense nr nc t))
  | Sparse nr nc t, Dense b => Dense (dense_mul (to_dense nr nc t) b)
  end.

(** ** Python arithmetic on floats *)

(** [a / b]: a zero divisor raises. *)
Definition py_div (a b : R) : M R :=
  if Req_dec_T b 0 then raise ZeroDivisionError else ret (a / b).

(** [x ** 0.5] on a float: the square root, for [0 <= x] (below zero
    Python answers with a complex number, which no call below reaches
    with a matrix to scale). *)
Definition pow_half (x : R) : R := sqrt x.

(** [mat *= x] on the stored entries of a sparse matrix, [x] a float. *)
Definition sparse_scale (t : list (nat * nat * cnum)) (x : R)
  : list (nat * nat * cnum) :=
  map (fun e => match e with (i, j, v) => (i, j, cmul v (creal x)) end) t.

(** [mat /= x] in place, [x] a Python float. numpy divides every entry of
    a dense array, and raises nothing when [x] is zero. scipy computes
    [recip = 1.0 / x] first, which raises on a zero [x], and multiplies the
    stored entries of a sparse matrix by [recip]. *)
Definition mat_idiv (m : mat) (x : R) : M mat :=
  match m with
  | Dense _ => ret (mat_div m (creal x))
  | Sparse nr nc t =>
      recip <- py_div 1 x ;;
      ret (Sparse nr nc (sparse_scale t recip))
  end.

(** [None / n]: [/] is not defined on [None]. *)
Definition py_div_opt (density : option R) (b : R) : M R :=
  match density with
  | None => raise TypeError
  | Some x => py_div x b
  end.

Definition is_none {A} (o : option A) : bool :=
  match o with None => true | Some _ => false end.

(** [a % b] on integers: a zero divisor raises; the result has the sign
    of the divisor. *)
Definition py_mod (a b : Z) : M Z :=
  if (b =? 0)%Z then raise ZeroDivisionError else ret (a mod b)%Z.

(** ** numpy helpers *)

Definition dense_of (m : mat) : list (list cnum) :=
  match m with
  | Dense a => a
  | Sparse nr nc t => to_dense nr nc t
  end.

(** [np.diagonal(a)]. *)
Definition diagonal (a : list (list cnum)) : list cnum :=
  map (fun i => nth i (nth i a []) NaN)
      (seq 0 (Nat.min (length a) (ncols a))).

(** [u[:, j]]: column [j] of a matrix, a one-column matrix; a negative
    index counts from the end, and an index outside the columns raises. *)
Definition column (m : mat) (j : Z) : M mat :=
  let a := dense_of m in
  let n := Z.of_nat (ncols a) in
  let j' := (if j <? 0 then n + j else j)%Z in
  if ((0 <=? j') && (j' <? n))%Z
  then ret (Dense (map (fun row => [nth (Z.to_nat j') row NaN]) a))
  else raise IndexError.

(** ** Collaborators of [quimb.core] and [quimb.accel] *)

Definition cabs2 (x : cnum) : cnum :=
  match x with Fin a => creal (Cnorm2 a) | NaN => NaN end.
Definition csqrt (x : cnum) : cnum :=
  match x with Fin a => creal (sqrt (Re a)) | NaN => NaN end.

(** The trace of a square array. *)
Definition trace (a : list (list cnum)) : cnum := csum (diagonal a).

(** The squared Euclidean norm of all the entries. *)
Definition norm2 (a : list (list cnum)) : cnum := csum (map cabs2 (concat a)).

(** Modelled from the spec: [rdmul] of [quimb.accel], the right-multiply by
    a diagonal primitive: [rdmul q v] is [q . diag(v)], so column [j] of
    [q] is multiplied by [v_j]. *)
Definition rdmul (q : list (list cnum)) (v : list cnum) : mat :=
  Dense (map (fun row => zip_with cmul row v) q).

(** Modelled from the spec: [nmlz] of [quimb.core], the normalization
    operator: a ket (one column) is rescaled to unit Euclidean norm, any
    other matrix to unit trace. *)
Definition nmlz (m : mat) : mat :=
  let a := dense_of m in
  if Nat.eqb (ncols a) 1
  then mat_div m (csqrt (norm2 a))
  else mat_div m (trace a).

(** Modelled from the spec: [ptr] of [quimb.core], the partial trace, on a
    ket of a system of two parts of dimensions [dA] and [dB] (the partition
    [[dA, dB]]): the marginal density matrix of one part, got by summing
    over the basis of the other. The spec reads [ptr(psi, [d, m], 0)] as
    the trace over the part of index 1: the last argument names the part
    that is kept. Amplitude [(i, k)] of the ket is its entry [i * dB + k]. *)
Definition ptr (p : mat) (dA dB : Z) (keep : Z) : mat :=
  let v := concat (dense_of p) in
  let a := Z.to_nat dA in
  let b := Z.to_nat dB in
  let amp i k := nth (i * b + k) v NaN in
  if (keep =? 0)%Z
  then Dense (map (fun i =>
                     map (fun j =>
                            csum (map (fun k => cmul (amp i k) (cconj (amp j k)))
                                      (seq 0 b)))
                         (seq 0 a))
                  (seq 0 a))
  else Dense (map (fun k =>
                     map (fun l =>
                            csum (map (fun i => cmul (amp i k) (cconj (amp i l)))
                                      (seq 0 a)))
                         (seq 0 b))
                  (seq 0 b)).

(** The Kronecker product of two arrays. *)
Definition kron2 (a b : list (list cnum)) : list (list cnum) :=
  flat_map (fun ra => map (fun rb => flat_map (fun x => map (cmul x) rb) ra) b)
           a.

(** Modelled from the spec: [kron] of [quimb.core], the tensor product of
    an ordered sequence of states, combined from left to right; the empty
    product is the scalar 1 (here the 1 by 1 array of entry 1). *)
Definition kron (ops : list mat) : mat :=
  Dense (fold_right (fun m acc => kron2 (dense_of m) acc) [[creal 1]] ops).

(** The type tag of a state object. *)
Inductive qtag : Type := TagKet | TagDop.

(** Modelled from the spec: [qu] of [quimb.core], the constructor that
    wraps a raw array into a state object of the asked type: a ket stays
    the column it is, a density matrix is the projector on it; with no tag
    the array is kept as it is. *)
Definition qu (data : list (list cnum)) (qtype : option qtag) : mat :=
  match qtype with
  | Some TagDop => mat_mul (Dense data) (mat_H (Dense data))
  | _ => Dense data
  end.

(** ** The ensembles *)

Section Ensembles.

(** [scipy.sparse.random(m, n, format, density)]: the places of the stored
    entries of a fresh sparse matrix, in storage order (its values are
    overwritten by every caller below). *)
Variable sp_random : Z -> Z -> string -> R -> M (list (nat * nat)).

Definition sparse_of (nr nc : Z) (pat : list (nat * nat))
  (vals : list cnum) : mat :=
  Sparse nr nc (zip_with (fun p v => (fst p, snd p, v)) pat vals).

(** [min(0.5, 10/d)]: ten stored entries a row, no more than half. *)
Definition default_density (d : Z) : M R :=
  q <- py_div 10 (IZR d) ;; ret (Rmin (1 / 2) q).

Definition rand_matrix (d : Z) (scaled sparse : bool) (format : string)
  (density : option R) : M mat :=
  ' (mat, density) <-
    (if sparse then
       density <- match density with
                  | None => default_density d
                  | Some x => ret x
                  end ;;
       pat <- sp_random d d format density ;;
       re <- randn1 (length pat) ;;
       im <- randn1 (length pat) ;;
       ret (sparse_of d d pat (zip_with complex_of re im), density)
     else
       re <- randn2 d d ;;
       im <- randn2 d d ;;
       ret (Dense (zip_with (zip_with complex_of) re im), 1)) ;;
  if scaled
  then mat_idiv mat (pow_half (2 * IZR d * density))
  else ret mat.

Definition rand_herm (d : Z) (sparse : bool) (density : option R) : M mat :=
  density <- (if (is_none density && sparse)%bool
              then x <- default_density d ;; ret (Some x)
              else ret density) ;;
  half <- py_div_opt density 2 ;;
  m <- rand_matrix d true sparse "csr"%string (Some half) ;;
  let herm := mat_div m (creal (Rpower 2 (3 / 2))) in
  ret (mat_add herm (mat_H herm)).

Definition rand_pos (d : Z) (sparse : bool) (density : option R) : M mat :=
  density <- (if (is_none density && sparse)%bool
              then x <- default_density d ;; ret (Some x)
              else ret density) ;;
  q <- py_div_opt density (IZR d) ;;
  m <- rand_matrix d true sparse "csr"%string (Some (pow_half q)) ;;
  let pos := mat_div m (creal 2) in
  ret (mat_mul pos (mat_H pos)).


Definition rand_rho (d : Z) (sparse : bool) (density : option R) : M mat :=
  pos <- rand_pos d sparse density ;;
  ret (nmlz pos).

Definition rand_ket (d : Z) (sparse : bool) (format : string) (density : R)
  : M mat :=
  ket <- (if sparse then
            pat <- sp_random d 1 format density ;;
            re <- randn1 (length pat) ;;
            im <- randn1 (length pat) ;;
            ret (sparse_of d 1 pat (zip_with complex_of re im))
          else
            re <- randn2 d 1 ;;
            im <- randn2 d 1 ;;
            ret (Dense (zip_with (zip_with complex_of) re im))) ;;
  ret (nmlz ket).

(** [np.linalg.qr]: the two factors of a square array. *)
Variable qr : list (list cnum) -> list (list cnum) * list (list cnum).

Definition rand_uni (d : Z) : M mat :=
  m <- rand_matrix d true false "csr"%string None ;;
  let '(q, r) := qr (dense_of m) in
  let r := diagonal r in
  let r := map (fun x => cdiv x (cabs x)) r in
  ret (rdmul q r).

Definition rand_haar_state (d : Z) : M mat :=
  u <- rand_uni d ;;
  column u 0.

(** The generator [gen_rand_haar_states(d, reps)], between two of its
    values: the loop index [rep] and the local [u], unbound at first. *)
Record haar_gen : Type := mkGen { gen_rep : Z; gen_u : option mat }.

Definition gen_rand_haar_states : haar_gen := mkGen 0 None.

(** One [next] on the generator: the value it yields, or [None] when the
    loop is over. *)
Definition gen_next (d reps : Z) (s : haar_gen) : M (option mat * haar_gen) :=
  if (gen_rep s <? reps)%Z then
    cyc <- py_mod (gen_rep s) d ;;
    u <- (if (cyc =? 0)%Z
          then u <- rand_uni d ;; ret (Some u)
          else ret (gen_u s)) ;;
    match u with
    | None => raise UnboundLocalError
    | Some u' =>
        v <- column u' cyc ;;
        ret (Some v, mkGen (gen_rep s + 1) u)
    end
  else ret (None, s).

(** The first [n] values of the generator, taken one after the other. *)
Fixpoint gen_take (d reps : Z) (n : nat) (s : haar_gen)
  : M (list mat * haar_gen) :=
  match n with
  | O => ret ([], s)
  | S n' =>
      ' (o, s') <- gen_next d reps s ;;
      match o with
      | None => ret ([], s')
      | Some v =>
          ' (vs, s'') <- gen_take d reps n' s' ;;
          ret (v :: vs, s'')
      end
  end.

Definition rand_mix (d : Z) : M mat :=
  m <- randint 2 (d + 1) ;;
  psi <- rand_ket (d * m) false "csr"%string (1 / 100) ;;
  ret (ptr psi d m 0).

(** [np.exp(1.0j * phi)]. *)
Definition exp_i (phi : R) : cnum := Fin (mkC (cos phi) (sin phi)).

Definition rand_pure_qubit (qtype : option qtag) : M mat :=
  u <- rand ;;
  v <- rand ;;
  let phi := 2 * PI * u in
  let theta := acos (2 * v - 1) in
  ret (qu [[creal (cos (theta / 2))];
           [cmul (creal (sin (theta / 2))) (exp_i phi)]]
          qtype).

(** The inner generator of [rand_product_state], run to its end. *)
Fixpoint gen_rand_pure_qubits (n : nat) (qtype : option qtag)
  : M (list mat) :=
  match n with
  | O => ret []
  | S n' =>
      q <- rand_pure_qubit qtype ;;
      qs <- gen_rand_pure_qubits n' qtype ;;
      ret (q :: qs)
  end.

Definition rand_product_state (n : Z) (qtype : option qtag) : M mat :=
  qs <- gen_rand_pure_qubits (Z.to_nat n) qtype ;;
  ret (kron qs).

End Ensembles.

(** ** Sample inputs *)

(** A generator whose every draw is the normal value [x], the uniform
    value 0 and the integer [k]. *)
Definition const_draw (x : R) (k : nat) : draw :=
  mkDraw x 0 k (conj (Rle_refl 0) Rlt_0_1).
Definition rng_const (x : R) (k : nat) : rng :=
  mkRng (fun _ => const_draw x k) 0.

(** A generator whose normal draws are the numbers of a list, in order,
    and 0 after its end. *)
Definition rng_normals (l : list R) : rng :=
  mkRng (fun k => const_draw (nth k l 0) 0) 0.

(** A generator whose draws all differ: draw [k] has the normal value
    [k + 1], the uniform value [1 / (k + 2)] and the integer [k]. *)
Definition unit_frac (k : nat) : R := / (INR k + 2).
Definition unit_frac_range (k : nat) : 0 <= unit_frac k < 1.
Proof.
  unfold unit_frac. pose proof (pos_INR k) as Hk. split.
  - left. apply Rinv_0_lt_compat. lra.
  - rewrite <- Rinv_1. apply Rinv_lt_contravar; lra.
Qed.
Definition rng_varied : rng :=
  mkRng (fun k => mkDraw (INR (S k)) (unit_frac k) k (unit_frac_range k)) 0.

(** A sparse sampler that stores nothing, and one that stores the corner. *)
Definition sp_empty : Z -> Z -> string -> R -> M (list (nat * nat)) :=
  fun _ _ _ _ => ret [].
Definition sp_corner : Z -> Z -> string -> R -> M (list (nat * nat)) :=
  fun _ _ _ _ => ret [(0%nat, 0%nat)].

Definition identity (n : nat) : list (list cnum) :=
  map (fun i => map (fun j => if Nat.eqb i j then creal 1 else creal 0)
                    (seq 0 n))
      (seq 0 n).

(** The factors [(I, a)]: a QR decomposition of every upper triangular
    [a]. *)
Definition qr_trivial (a : list (list cnum))
  : list (list cnum) * list (list cnum) :=
  (identity (length a), a).

(** The raw dense sample of order [d]: entry [(i, j)] has the normal draw
    [i * d + j] as real part and the draw [d * d + i * d + j] as imaginary
    part. *)
Definition raw_dense (d : nat) (g : rng) : list (list cnum) :=
  map (fun i =>
         map (fun j =>
                Fin (mkC (normal (draws g (cursor g + i * d + j)%nat))
                         (normal (draws g (cursor g + d * d + i * d + j)%nat))))
             (seq 0 d))
      (seq 0 d).

(** The scaled dense sample of order [d]: what [rand_matrix(d)] returns
    with its defaults. *)
Definition scaled_dense (d : Z) (g : rng) : list (list cnum) :=
  map (map (fun v => cdiv v (creal (sqrt (2 * IZR d * 1)))))
      (raw_dense (Z.to_nat d) g).

(** [r / np.abs(r)]: the phase of each entry. *)
Definition phases (r : list cnum) : list cnum :=
  map (fun x => cdiv x (cabs x)) r.


(** ** The stream of Haar states, step by step *)

(** The unitary that [rand_uni(d)] returns from the generator state [g]. *)
Definition haar_of
  (qr : list (list cnum) -> list (list cnum) * list (list cnum))
  (d : Z) (g : rng) : mat :=
  rdmul (fst (qr (scaled_dense d g)))
        (phases (diagonal (snd (qr (scaled_dense d g))))).

(** The generator state after [j] unitaries of order [d] were sampled:
    each takes [d * d] normal draws twice. *)
Definition after_samples (d : Z) (j : nat) (g : rng) : rng :=
  mkRng (draws g)
        (cursor g + j * (Z.to_nat d * Z.to_nat d + Z.to_nat d * Z.to_nat d)).

(** The number of multiples of [d] among the indices [0 .. n-1]. *)
Definition sampled (d : Z) (n : nat) : nat :=
  Z.to_nat ((Z.of_nat n + d - 1) / d).

(** Column [j], as a one-column matrix. *)
Definition column_of (m : mat) (j : nat) : mat :=
  Dense (map (fun row => [nth j row NaN]) (dense_of m)).

(** The unitary in use at emission [k]: the one sampled last, the
    [k / d]-th. *)
Definition unitary_at
  (qr : list (list cnum) -> list (list cnum) * list (list cnum))
  (d : Z) (g : rng) (k : nat) : mat :=
  haar_of qr d (after_samples d (Z.to_nat (Z.of_nat k / d)) g).

(** The local [u] of the generator once [n] values were emitted. *)
Definition cached
  (qr : list (list cnum) -> list (list cnum) * list (list cnum))
  (d : Z) (g : rng) (n : nat) : option mat :=
  match n with
  | O => None
  | S k => Some (unitary_at qr d g k)
  end.

(** ** The product state, qubit by qubit *)

(** The qubit state [[cos(theta/2), sin(theta/2) e^(i phi)]] of the draws
    [u] and [v], with [phi = 2 pi u] and [theta = arccos(2 v - 1)]. *)
Definition qubit_of (u v : R) : list (list cnum) :=
  [[creal (cos (acos (2 * v - 1) / 2))];
   [cmul (creal (sin (acos (2 * v - 1) / 2))) (exp_i (2 * PI * u))]].

(** Qubit [i] of a product state sampled from the generator state [g]: its
    [u] is the uniform draw [2 i] and its [v] the draw [2 i + 1]. *)
Definition qubit_at (g : rng) (i : nat) : list (list cnum) :=
  qubit_of (uniform (draws g (cursor g + 2 * i)%nat))
           (uniform (draws g (cursor g + 2 * i + 1)%nat)).

(** ** The mixed state, step by step *)

(** The raw dense ket of [n] entries: entry [i] has the normal draw [i] as
    real part and the draw [n + i] as imaginary part. *)
Definition raw_ket (n : nat) (g : rng) : list (list cnum) :=
  map (fun i =>
         [Fin (mkC (normal (draws g (cursor g + i)%nat))
                   (normal (draws g (cursor g + n + i)%nat)))])
      (seq 0 n).

Definition Rsum (l : list R) : R := fold_right Rplus 0 l.

(** ** Shapes and predicates of the statements *)

(** The values that [rand_matrix] stores in a sparse matrix of [n] stored
    entries: entry [k] has the normal draw [k] as real part and the draw
    [n + k] as imaginary part. *)
Definition raw_sparse_values (n : nat) (g : rng) : list cnum :=
  map (fun k =>
         Fin (mkC (normal (draws g (cursor g + k)%nat))
                  (normal (draws g (cursor g + n + k)%nat))))
      (seq 0 n).

(** A matrix of order [n] that equals its conjugate transpose. *)
Definition hermitian (n : nat) (m : mat) : Prop :=
  forall i j, (i < n)%nat -> (j < n)%nat -> entry m i j = cconj (entry m j i).

(** A dense array of [n] rows of [n] entries. *)
Definition square (n : nat) (a : list (list cnum)) : Prop :=
  length a = n /\ forall row, In row a -> length row = n.

(** A column: every row has one entry. *)
Definition column_shape (n : nat) (a : list (list cnum)) : Prop :=
  length a = n /\ forall row, In row a -> length row = 1%nat.

(** A number of modulus 1. *)
Definition unit_phase (x : cnum) : Prop :=
  exists w, x = Fin w /\ Cnorm2 w = 1.


(** A number that is not zero. *)
Definition nonzero (x : cnum) : Prop :=
  exists z, x = Fin z /\ z <> C0.

(** A number, as opposed to [NaN]. *)
Definition is_fin (x : cnum) : Prop := exists z, x = Fin z.

(** The matrix [pos] of [rand_pos] in dense mode, before it is multiplied
    by its conjugate transpose: the scaled sample, halved. *)
Definition half_scaled_dense (d : Z) (g : rng) : list (list cnum) :=
  map (map (fun v => cdiv v (creal 2))) (scaled_dense d g).

(** * Properties *)

(** ** Arithmetic of the entries *)

Lemma C_eq (a b c d : R) : a = c -> b = d -> mkC a b = mkC c d.
Proof. intros -> ->; reflexivity. Qed.

Lemma creal_neq0 (s : R) : s <> 0 -> mkC s 0 <> C0.
Proof. intros Hs H; apply Hs; unfold C0 in H; injection H; auto. Qed.

(** Division of a number by a real scalar that is not zero divides both of
    its parts. *)
Lemma cdiv_real (z : C) (s : R) :
  s <> 0 -> cdiv (Fin z) (creal s) = Fin (mkC (Re z / s) (Im z / s)).
Proof.
  intros Hs. unfold cdiv, creal.
  destruct (C_eq0_dec (mkC s 0)) as [E | _].
  - exfalso; revert E; apply creal_neq0; exact Hs.
  - f_equal. unfold Cdiv, Cnorm2; simpl. apply C_eq; field; exact Hs.
Qed.

Lemma cdiv_zero (x : cnum) : cdiv x (creal 0) = NaN.
Proof.
  destruct x as [z |]; [| reflexivity].
  unfold cdiv, creal.
  destruct (C_eq0_dec (mkC 0 0)) as [_ | E]; [reflexivity |].
  exfalso; apply E; reflexivity.
Qed.

Lemma cadd_comm (x y : cnum) : cadd x y = cadd y x.
Proof.
  destruct x as [a |], y as [b |]; simpl; auto.
  f_equal; unfold Cplus; apply C_eq; ring.
Qed.

Lemma cadd_assoc (x y z : cnum) : cadd x (cadd y z) = cadd (cadd x y) z.
Proof.
  destruct x as [a |], y as [b |], z as [c |]; simpl; auto.
  f_equal; unfold Cplus; simpl; apply C_eq; ring.
Qed.

Lemma cadd_0_l (x : cnum) : cadd (creal 0) x = x.
Proof.
  destruct x as [[a b] |]; simpl; auto.
  f_equal; unfold Cplus; simpl; apply C_eq; ring.
Qed.

Lemma cadd_0_r (x : cnum) : cadd x (creal 0) = x.
Proof. rewrite cadd_comm; apply cadd_0_l. Qed.

Lemma cconj_invol (x : cnum) : cconj (cconj x) = x.
Proof.
  destruct x as [[a b] |]; simpl; auto.
  f_equal; unfold Cconj; simpl; apply C_eq; ring.
Qed.

Lemma cconj_cadd (x y : cnum) : cconj (cadd x y) = cadd (cconj x) (cconj y).
Proof.
  destruct x as [a |], y as [b |]; simpl; auto.
  f_equal; unfold Cconj, Cplus; simpl; apply C_eq; ring.
Qed.

Lemma cconj_0 : cconj (creal 0) = creal 0.
Proof. unfold creal; simpl; f_equal; unfold Cconj; simpl; apply C_eq; ring. Qed.

Lemma cconj_cdiv_real (x : cnum) (s : R) :
  cconj (cdiv x (creal s)) = cdiv (cconj x) (creal s).
Proof.
  destruct (Req_dec_T s 0) as [-> | Hs].
  - rewrite !cdiv_zero; reflexivity.
  - destruct x as [z |]; simpl cconj at 2; [| reflexivity].
    rewrite !cdiv_real by exact Hs. simpl.
    f_equal; unfold Cconj; simpl; apply C_eq; field; exact Hs.
Qed.

Lemma cdiv_cadd_real (x y : cnum) (s : R) :
  cdiv (cadd x y) (creal s) = cadd (cdiv x (creal s)) (cdiv y (creal s)).
Proof.
  destruct (Req_dec_T s 0) as [-> | Hs].
  - rewrite !cdiv_zero; reflexivity.
  - destruct x as [a |], y as [b |]; simpl cadd at 1.
    + rewrite !cdiv_real by exact Hs. simpl.
      f_equal; unfold Cplus; simpl; apply C_eq; field; exact Hs.
    + rewrite cdiv_real by exact Hs; reflexivity.
    + reflexivity.
    + reflexivity.
Qed.

(** ** Lists *)

Lemma zip_with_length {A B D} (f : A -> B -> D) (l : list A) (l' : list B) :
  length (zip_with f l l') = Nat.min (length l) (length l').
Proof. unfold zip_with; rewrite length_map, length_combine; reflexivity. Qed.

Lemma zip_with_nth {A B D} (f : A -> B -> D) (l : list A) (l' : list B)
  (n : nat) (da : A) (db : B) (dd : D) :
  (n < length l)%nat -> (n < length l')%nat ->
  nth n (zip_with f l l') dd = f (nth n l da) (nth n l' db).
Proof.
  unfold zip_with. revert l' n.
  induction l as [| a l IH]; intros [| b l'] n H1 H2; simpl in *; try lia.
  destruct n as [| n]; [reflexivity |].
  apply IH; lia.
Qed.

Lemma map_seq_nth {A} (f : nat -> A) (n k : nat) (d : A) :
  (k < n)%nat -> nth k (map f (seq 0 n)) d = f k.
Proof.
  intros H. rewrite (nth_indep _ d (f 0%nat)) by (rewrite length_map, length_seq; exact H).
  rewrite (map_nth f (seq 0 n) 0%nat k), seq_nth by exact H. reflexivity.
Qed.

Lemma nth_nil {A} (n : nat) (d : A) : nth n [] d = d.
Proof. destruct n; reflexivity. Qed.

Lemma nth_map_default {A B} (f : A -> B) (l : list A) (n : nat)
  (da : A) (db : B) :
  (n < length l)%nat -> nth n (map f l) db = f (nth n l da).
Proof.
  intros H. rewrite (nth_indep _ db (f da)) by (rewrite length_map; exact H).
  apply map_nth.
Qed.

(** ** The raw ensemble sampler *)

(** Multiplying by the reciprocal of a real that is not zero divides. *)
Lemma cmul_recip (v : cnum) (s : R) :
  s <> 0 -> cmul v (creal (1 / s)) = cdiv v (creal s).
Proof.
  intros Hs. destruct v as [z |]; [| reflexivity].
  rewrite cdiv_real by exact Hs. unfold cmul, creal. f_equal.
  unfold Cmult; simpl. apply C_eq; field; exact Hs.
Qed.

Lemma sparse_scale_recip (t : list (nat * nat * cnum)) (s : R) :
  s <> 0 ->
  sparse_scale t (1 / s) =
  map (fun e => match e with (i, j, v) => (i, j, cdiv v (creal s)) end) t.
Proof.
  intros Hs. unfold sparse_scale. apply map_ext.
  intros [[i j] v]. rewrite cmul_recip by exact Hs. reflexivity.
Qed.

(** [mat /= s] for a real [s] that is not zero is [mat / s]. *)
Lemma mat_idiv_nonzero (m : mat) (s : R) (g : rng) :
  s <> 0 -> mat_idiv m s g = Ok (mat_div m (creal s), g).
Proof.
  intros Hs. destruct m as [a | nr nc t]; [reflexivity |].
  unfold mat_idiv, py_div, bind, ret.
  destruct (Req_dec_T s 0) as [E | _]; [contradiction |].
  rewrite sparse_scale_recip by exact Hs. reflexivity.
Qed.

(** [mat /= 0.0] raises on a sparse matrix, and on no dense array. *)
Lemma mat_idiv_zero (m : mat) (g : rng) :
  mat_idiv m 0 g =
  match m with
  | Dense _ => Ok (mat_div m (creal 0), g)
  | Sparse _ _ _ => Raise ZeroDivisionError
  end.
Proof.
  destruct m as [a | nr nc t]; [reflexivity |].
  unfold mat_idiv, py_div, bind, raise.
  destruct (Req_dec_T 0 0) as [_ | E]; [reflexivity | contradiction].
Qed.

Section RawEnsemble.

Variable sp_random : Z -> Z -> string -> R -> M (list (nat * nat)).

Lemma rand_matrix_scaled_of_raw (d : Z) (sparse : bool) (format : string)
  (rho : R) (g : rng) :
  rand_matrix sp_random d true sparse format (Some rho) g =
  match rand_matrix sp_random d false sparse format (Some rho) g with
  | Ok (m, g') =>
      mat_idiv m (pow_half (2 * IZR d * (if sparse then rho else 1))) g'
  | Raise e => Raise e
  end.
Proof.
  unfold rand_matrix, bind, ret.
  destruct sparse.
  - destruct (sp_random d d format rho g) as [[pat g1] | e]; reflexivity.
  - destruct (randn2 d d g) as [[re g1] | e]; [| reflexivity].
    destruct (randn2 d d g1) as [[im g2] | e]; reflexivity.
Qed.

Lemma randn2_ok (r c : Z) (g : rng) :
  (0 <= r)%Z -> (0 <= c)%Z ->
  randn2 r c g =
  Ok (map (fun i =>
             map (fun j =>
                    normal (draws g (cursor g + i * Z.to_nat c + j)%nat))
                 (seq 0 (Z.to_nat c)))
          (seq 0 (Z.to_nat r)),
      advance (Z.to_nat r * Z.to_nat c) g).
Proof.
  intros Hr Hc. unfold randn2.
  replace (r <? 0)%Z with false by (symmetry; apply Z.ltb_ge; lia).
  replace (c <? 0)%Z with false by (symmetry; apply Z.ltb_ge; lia).
  reflexivity.
Qed.

Lemma randn2_negative (r c : Z) (g : rng) :
  (r < 0)%Z -> randn2 r c g = Raise ValueError.
Proof.
  intros Hr. unfold randn2.
  replace (r <? 0)%Z with true by (symmetry; apply Z.ltb_lt; lia).
  reflexivity.
Qed.

Lemma zip_with_map_seq {A B D} (f : A -> B -> D) (u : nat -> A) (v : nat -> B)
  (n : nat) :
  zip_with f (map u (seq 0 n)) (map v (seq 0 n)) =
  map (fun k => f (u k) (v k)) (seq 0 n).
Proof.
  unfold zip_with. generalize 0%nat.
  induction n as [| n IH]; intros s0; simpl; [reflexivity |].
  f_equal. apply IH.
Qed.

Lemma rand_matrix_dense_raw (d : Z) (format : string) (density : option R)
  (g : rng) :
  (0 <= d)%Z ->
  rand_matrix sp_random d false false format density g =
  Ok (Dense (raw_dense (Z.to_nat d) g),
      advance (Z.to_nat d * Z.to_nat d)
              (advance (Z.to_nat d * Z.to_nat d) g)).
Proof.
  intros Hd. unfold rand_matrix, bind, ret.
  rewrite (randn2_ok d d g Hd Hd).
  rewrite (randn2_ok d d _ Hd Hd).
  do 2 f_equal. f_equal.
  rewrite zip_with_map_seq. unfold raw_dense.
  apply map_ext; intros i.
  rewrite zip_with_map_seq.
  apply map_ext; intros j. reflexivity.
Qed.

Lemma rand_matrix_dense_scaled (d : Z) (format : string) (density : option R)
  (g : rng) :
  (0 <= d)%Z ->
  rand_matrix sp_random d true false format density g =
  Ok (Dense (map (map (fun v => cdiv v (creal (sqrt (2 * IZR d * 1)))))
                 (raw_dense (Z.to_nat d) g)),
      advance (Z.to_nat d * Z.to_nat d)
              (advance (Z.to_nat d * Z.to_nat d) g)).
Proof.
  intros Hd.
  pose proof (rand_matrix_dense_raw d format density g Hd) as Hraw.
  unfold rand_matrix, bind, ret in *.
  destruct (randn2 d d g) as [[re g1] | e]; [| discriminate].
  destruct (randn2 d d g1) as [[im g2] | e]; [| discriminate].
  injection Hraw as Ha Hg. rewrite Ha, Hg. reflexivity.
Qed.

Lemma raw_dense_shape (d : nat) (g : rng) :
  length (raw_dense d g) = d /\
  forall row, In row (raw_dense d g) -> length row = d.
Proof.
  unfold raw_dense. split.
  - rewrite length_map, length_seq; reflexivity.
  - intros row Hin. apply in_map_iff in Hin as [i [<- _]].
    rewrite length_map, length_seq; reflexivity.
Qed.

(** Entry [(i, j)] of the raw dense sample. *)
Lemma raw_dense_entry (d : nat) (g : rng) (i j : nat) :
  (i < d)%nat -> (j < d)%nat ->
  nth j (nth i (raw_dense d g) []) NaN =
  Fin (mkC (normal (draws g (cursor g + i * d + j)%nat))
           (normal (draws g (cursor g + d * d + i * d + j)%nat))).
Proof.
  intros Hi Hj. unfold raw_dense.
  rewrite (map_seq_nth
             (fun i0 =>
                map (fun j0 =>
                       Fin (mkC (normal (draws g (cursor g + i0 * d + j0)%nat))
                                (normal (draws g
                                   (cursor g + d * d + i0 * d + j0)%nat))))
                    (seq 0 d)) d i []) by exact Hi.
  rewrite (map_seq_nth
             (fun j0 =>
                Fin (mkC (normal (draws g (cursor g + i * d + j0)%nat))
                         (normal (draws g (cursor g + d * d + i * d + j0)%nat))))
             d j NaN) by exact Hj.
  reflexivity.
Qed.

Lemma mat_div_sparse_of (nr nc : Z) (pat : list (nat * nat))
  (vals : list cnum) (x : cnum) :
  mat_div (sparse_of nr nc pat vals) x =
  sparse_of nr nc pat (map (fun v => cdiv v x) vals).
Proof.
  unfold sparse_of, mat_div, zip_with. f_equal.
  revert vals. induction pat as [| p pat IH]; intros [| v vals]; simpl;
    try reflexivity.
  f_equal. apply IH.
Qed.

(** A place that is not stored holds zero. *)
Lemma sparse_of_unstored (nr nc : Z) (pat : list (nat * nat))
  (vals : list cnum) (i j : nat) :
  ~ In (i, j) pat -> entry (sparse_of nr nc pat vals) i j = creal 0.
Proof.
  unfold sparse_of, entry, stored, zip_with.
  revert vals. induction pat as [| [i' j'] pat IH]; intros vals Hin.
  - reflexivity.
  - destruct vals as [| v vals]; [reflexivity |]. simpl.
    destruct (Nat.eqb i i' && Nat.eqb j j')%bool eqn:E.
    + exfalso. apply Hin. left.
      apply andb_true_iff in E as [E1 E2].
      apply Nat.eqb_eq in E1, E2. subst; reflexivity.
    + apply IH. intros H; apply Hin; right; exact H.
Qed.

(** A place that is stored once holds the value stored there. *)
Lemma sparse_of_stored (nr nc : Z) (pat : list (nat * nat))
  (vals : list cnum) (k : nat) :
  NoDup pat -> (k < length pat)%nat -> length vals = length pat ->
  entry (sparse_of nr nc pat vals)
        (fst (nth k pat (0%nat, 0%nat))) (snd (nth k pat (0%nat, 0%nat)))
  = nth k vals NaN.
Proof.
  revert vals k. induction pat as [| [i' j'] pat IH]; intros vals k Hnd Hk Hl.
  - simpl in Hk; lia.
  - destruct vals as [| v vals]; [simpl in Hl; lia |].
    inversion Hnd as [| p0 l0 Hnotin Hnd']; subst.
    destruct k as [| k].
    + cbn [nth fst snd].
      pose proof (sparse_of_unstored nr nc pat vals i' j' Hnotin) as Hz.
      unfold sparse_of, entry, stored, zip_with in *.
      cbn [combine map fold_right fst snd].
      rewrite !Nat.eqb_refl. cbn [andb]. rewrite Hz. apply cadd_0_r.
    + cbn [nth].
      assert (Hin : In (nth k pat (0%nat, 0%nat)) pat)
        by (apply nth_In; simpl in Hk; lia).
      specialize (IH vals k Hnd' ltac:(simpl in Hk; lia)
                     ltac:(simpl in Hl; lia)).
      destruct (nth k pat (0%nat, 0%nat)) as [i j] eqn:E.
      cbn [fst snd] in *.
      unfold sparse_of, entry, stored, zip_with in *.
      cbn [combine map fold_right fst snd].
      destruct (Nat.eqb i i' && Nat.eqb j j')%bool eqn:Eb.
      * exfalso. apply Hnotin.
        apply andb_true_iff in Eb as [E1 E2].
        apply Nat.eqb_eq in E1, E2. subst. exact Hin.
      * exact IH.
Qed.

(** The stored entries of [sparse_of], one by one. *)
Lemma sparse_of_triples (pat : list (nat * nat)) (vals : list cnum) (k : nat) :
  (k < length pat)%nat -> length vals = length pat ->
  nth k (zip_with (fun (p : nat * nat) (v : cnum) => (fst p, snd p, v))
                  pat vals)
      (0%nat, 0%nat, NaN)
  = (fst (nth k pat (0%nat, 0%nat)), snd (nth k pat (0%nat, 0%nat)),
     nth k vals NaN).
Proof.
  intros Hk Hl.
  apply (zip_with_nth (fun (p : nat * nat) (v : cnum) => (fst p, snd p, v))
           pat vals k (0%nat, 0%nat) NaN (0%nat, 0%nat, NaN)); lia.
Qed.

Lemma raw_sparse_values_length (n : nat) (g : rng) :
  length (raw_sparse_values n g) = n.
Proof. unfold raw_sparse_values. rewrite length_map, length_seq. reflexivity. Qed.

Lemma raw_sparse_values_nth (n : nat) (g : rng) (k : nat) :
  (k < n)%nat ->
  nth k (raw_sparse_values n g) NaN =
  Fin (mkC (normal (draws g (cursor g + k)%nat))
           (normal (draws g (cursor g + n + k)%nat))).
Proof.
  intros Hk. unfold raw_sparse_values.
  apply (map_seq_nth
           (fun k0 => Fin (mkC (normal (draws g (cursor g + k0)%nat))
                               (normal (draws g (cursor g + n + k0)%nat))))
           n k NaN Hk).
Qed.

Lemma default_density_ok (d : Z) (g : rng) :
  (1 <= d)%Z ->
  default_density d g = Ok (Rmin (1 / 2) (10 / IZR d), g).
Proof.
  intros Hd. unfold default_density, py_div, bind, ret.
  destruct (Req_dec_T (IZR d) 0) as [E | _]; [| reflexivity].
  apply IZR_le in Hd. lra.
Qed.

(** The sparse mode with a density, step by step: the sampler, the two
    vectors of normal draws, and the in-place division, which raises on a
    zero divisor. *)
Lemma rand_matrix_sparse_run (d : Z) (scaled : bool) (format : string)
  (rho : R) (g : rng) :
  rand_matrix sp_random d scaled true format (Some rho) g =
  match sp_random d d format rho g with
  | Raise e => Raise e
  | Ok (pat, g1) =>
      if scaled
      then if Req_dec_T (sqrt (2 * IZR d * rho)) 0
           then Raise ZeroDivisionError
           else Ok (sparse_of d d pat
                      (map (fun v => cdiv v (creal (sqrt (2 * IZR d * rho))))
                           (raw_sparse_values (length pat) g1)),
                    advance (length pat) (advance (length pat) g1))
      else Ok (sparse_of d d pat (raw_sparse_values (length pat) g1),
               advance (length pat) (advance (length pat) g1))
  end.
Proof.
  destruct scaled.
  - rewrite rand_matrix_scaled_of_raw.
    unfold rand_matrix, bind, ret.
    destruct (sp_random d d format rho g) as [[pat g1] | e]; [| reflexivity].
    unfold randn1. simpl cursor. simpl draws.
    rewrite zip_with_map_seq. fold (raw_sparse_values (length pat) g1).
    unfold pow_half.
    destruct (Req_dec_T (sqrt (2 * IZR d * rho)) 0) as [E | E].
    + rewrite E, mat_idiv_zero. reflexivity.
    + rewrite mat_idiv_nonzero by exact E.
      rewrite mat_div_sparse_of. reflexivity.
  - unfold rand_matrix, bind, ret.
    destruct (sp_random d d format rho g) as [[pat g1] | e]; [| reflexivity].
    unfold randn1. simpl cursor. simpl draws.
    rewrite zip_with_map_seq. reflexivity.
Qed.

(** The same, when the divisor is not zero. *)
Lemma rand_matrix_sparse_given (d : Z) (scaled : bool) (format : string)
  (rho : R) (g : rng) :
  (scaled = true -> sqrt (2 * IZR d * rho) <> 0) ->
  rand_matrix sp_random d scaled true format (Some rho) g =
  match sp_random d d format rho g with
  | Raise e => Raise e
  | Ok (pat, g1) =>
      Ok (sparse_of d d pat
            (map (fun v => if scaled
                           then cdiv v (creal (sqrt (2 * IZR d * rho)))
                           else v)
                 (raw_sparse_values (length pat) g1)),
          advance (length pat) (advance (length pat) g1))
  end.
Proof.
  intros Hs. rewrite rand_matrix_sparse_run.
  destruct (sp_random d d format rho g) as [[pat g1] | e]; [| reflexivity].
  destruct scaled.
  - destruct (Req_dec_T (sqrt (2 * IZR d * rho)) 0) as [E | _];
      [exfalso; apply Hs; [reflexivity | exact E] | reflexivity].
  - rewrite map_id. reflexivity.
Qed.

(** C2. With [scaled] true, for [d >= 1] and a density in [(0, 1]], every
    sampled entry is divided by [sqrt (2 * d * density)], a positive real.
    In dense mode the density of that factor is 1.0, whatever was passed:
    entry [(i, j)] of the matrix returned is the entry [(i, j)] of the raw
    sample, whose parts are two normal draws, divided by [sqrt (2 * d)].
    In sparse mode stored entry [c] is the one of the raw sample, at the
    place the sparse sampler gave, divided by [sqrt (2 * d * density)]. The
    raw sample is what the call with [scaled] false returns from the same
    draws. *)
Theorem rand_matrix_scaling (d : Z) (format : string) (rho : R) (g : rng) :
  (1 <= d)%Z -> 0 < rho <= 1 ->
  let n := Z.to_nat d in
  (let s := sqrt (2 * IZR d * 1) in
   let g' := advance (n * n) (advance (n * n) g) in
   let re i j := normal (draws g (cursor g + i * n + j)%nat) in
   let im i j := normal (draws g (cursor g + n * n + i * n + j)%nat) in
   0 < s /\
   exists raw a,
     rand_matrix sp_random d false false format (Some rho) g
     = Ok (Dense raw, g') /\
     rand_matrix sp_random d true false format (Some rho) g
     = Ok (Dense a, g') /\
     Dense a = mat_div (Dense raw) (creal s) /\
     square n raw /\ square n a /\
     forall i j, (i < n)%nat -> (j < n)%nat ->
       entry (Dense raw) i j = Fin (mkC (re i j) (im i j)) /\
       entry (Dense a) i j = cdiv (entry (Dense raw) i j) (creal s) /\
       entry (Dense a) i j = Fin (mkC (re i j / s) (im i j / s))) /\
  (let s := sqrt (2 * IZR d * rho) in
   0 < s /\
   match sp_random d d format rho g with
   | Raise e =>
       rand_matrix sp_random d true true format (Some rho) g = Raise e
   | Ok (pat, g1) =>
       let k := length pat in
       let g' := advance k (advance k g1) in
       let place c := nth c pat (0%nat, 0%nat) in
       let re c := normal (draws g1 (cursor g1 + c)%nat) in
       let im c := normal (draws g1 (cursor g1 + k + c)%nat) in
       exists raw t,
         rand_matrix sp_random d false true format (Some rho) g
         = Ok (Sparse d d raw, g') /\
         rand_matrix sp_random d true true format (Some rho) g
         = Ok (Sparse d d t, g') /\
         Sparse d d t = mat_div (Sparse d d raw) (creal s) /\
         length raw = k /\ length t = k /\
         forall c, (c < k)%nat ->
           nth c raw (0%nat, 0%nat, NaN)
           = (fst (place c), snd (place c), Fin (mkC (re c) (im c))) /\
           nth c t (0%nat, 0%nat, NaN)
           = (fst (place c), snd (place c),
              cdiv (snd (nth c raw (0%nat, 0%nat, NaN))) (creal s)) /\
           nth c t (0%nat, 0%nat, NaN)
           = (fst (place c), snd (place c),
              Fin (mkC (re c / s) (im c / s)))
   end).
Proof.
  intros Hd Hrho n. apply IZR_le in Hd as HdR. split.
  - intros s g' re im.
    assert (Hs : 0 < s) by (apply sqrt_lt_R0; nra).
    split; [exact Hs |].
    exists (raw_dense n g),
           (map (map (fun v => cdiv v (creal s))) (raw_dense n g)).
    split; [apply rand_matrix_dense_raw; lia |].
    split; [apply rand_matrix_dense_scaled; lia |].
    split; [reflexivity |].
    pose proof (raw_dense_shape n g) as [Hl Hr].
    split; [split; assumption |]. split.
    + split.
      * rewrite length_map; exact Hl.
      * intros row Hin. apply in_map_iff in Hin as [r0 [<- Hin]].
        rewrite length_map. apply Hr; exact Hin.
    + intros i j Hi Hj.
      assert (Eraw : entry (Dense (raw_dense n g)) i j
                     = Fin (mkC (re i j) (im i j)))
        by (apply raw_dense_entry; assumption).
      assert (Ediv : entry (Dense (map (map (fun v => cdiv v (creal s)))
                                       (raw_dense n g))) i j
                     = cdiv (entry (Dense (raw_dense n g)) i j) (creal s)).
      { cbn [entry].
        rewrite (nth_map_default _ (raw_dense n g) i [] []) by lia.
        rewrite (nth_map_default _ _ j NaN NaN); [reflexivity |].
        rewrite Hr; [exact Hj | apply nth_In; lia]. }
      split; [exact Eraw |]. split; [exact Ediv |].
      rewrite Ediv, Eraw. apply cdiv_real. lra.
  - intros s.
    assert (Hs : 0 < s) by (apply sqrt_lt_R0; nra).
    split; [exact Hs |].
    rewrite !rand_matrix_sparse_run.
    destruct (sp_random d d format rho g) as [[pat g1] | e]; [| reflexivity].
    fold s. destruct (Req_dec_T s 0) as [E | _]; [lra |].
    intros k g' place re im.
    eexists; eexists.
    split; [reflexivity |]. split; [reflexivity |].
    pose proof (raw_sparse_values_length k g1) as Hlen.
    split; [| split; [| split]].
    + fold (sparse_of d d pat (raw_sparse_values (length pat) g1)).
      rewrite mat_div_sparse_of. reflexivity.
    + rewrite zip_with_length. fold k. lia.
    + rewrite zip_with_length, length_map. fold k. lia.
    + intros c Hc.
      assert (Eraw : nth c (zip_with
                              (fun (p : nat * nat) (v : cnum) =>
                                 (fst p, snd p, v))
                              pat (raw_sparse_values (length pat) g1))
                         (0%nat, 0%nat, NaN)
                     = (fst (place c), snd (place c),
                        Fin (mkC (re c) (im c)))).
      { rewrite sparse_of_triples by (fold k; lia).
        fold k. rewrite raw_sparse_values_nth by exact Hc. reflexivity. }
      assert (Et : nth c (zip_with
                            (fun (p : nat * nat) (v : cnum) =>
                               (fst p, snd p, v))
                            pat
                            (map (fun v => cdiv v (creal s))
                                 (raw_sparse_values (length pat) g1)))
                       (0%nat, 0%nat, NaN)
                   = (fst (place c), snd (place c),
                      cdiv (Fin (mkC (re c) (im c))) (creal s))).
      { rewrite sparse_of_triples
          by (rewrite ?length_map; fold k; lia).
        fold k.
        rewrite (nth_map_default _ _ c NaN NaN) by lia.
        rewrite raw_sparse_values_nth by exact Hc. reflexivity. }
      split; [exact Eraw |]. split.
      * rewrite Et, Eraw. reflexivity.
      * rewrite Et. rewrite cdiv_real by lra. reflexivity.
Qed.

(** C6, as the code has it. [rand_matrix] checks none of its arguments. In
    dense mode the density is never read: for every [d >= 0], zero
    included, and every density, in [(0, 1]] or not, a matrix of [d] rows
    of [d] entries is returned, the one returned with no density. In
    sparse mode a given density (not below zero) goes unchecked to the
    sparse sampler: [rand_matrix] fails when that sampler does; when the
    sampler returns, it fails only with [scaled] true and
    [2 * d * density = 0], by the [ZeroDivisionError] of the division in
    place that ends the call, and returns a matrix otherwise. *)
Theorem rand_matrix_unchecked (d : Z) (scaled : bool) (format : string)
  (density : option R) (g : rng) :
  (0 <= d)%Z ->
  (exists a g',
      rand_matrix sp_random d scaled false format density g = Ok (Dense a, g') /\
      rand_matrix sp_random d scaled false format None g = Ok (Dense a, g') /\
      length a = Z.to_nat d /\
      (forall row, In row a -> length row = Z.to_nat d)) /\
  (forall rho,
      0 <= rho ->
      match sp_random d d format rho g with
      | Raise e =>
          rand_matrix sp_random d scaled true format (Some rho) g = Raise e
      | Ok (pat, _) =>
          (scaled = true -> 2 * IZR d * rho = 0 ->
           rand_matrix sp_random d scaled true format (Some rho) g
           = Raise ZeroDivisionError) /\
          (scaled = false \/ 2 * IZR d * rho <> 0 ->
           exists t g',
             rand_matrix sp_random d scaled true format (Some rho) g
             = Ok (Sparse d d t, g') /\
             length t = length pat)
      end).
Proof.
  intros Hd. split.
  - destruct scaled.
    + eexists; eexists. split; [apply rand_matrix_dense_scaled; exact Hd |].
      split; [apply rand_matrix_dense_scaled; exact Hd |].
      destruct (raw_dense_shape (Z.to_nat d) g) as [Hl Hr]. split.
      * rewrite length_map; exact Hl.
      * intros row Hin. apply in_map_iff in Hin as [r0 [<- Hin]].
        rewrite length_map. apply Hr; exact Hin.
    + eexists; eexists. split; [apply rand_matrix_dense_raw; exact Hd |].
      split; [apply rand_matrix_dense_raw; exact Hd |].
      apply raw_dense_shape.
  - intros rho Hrho. apply IZR_le in Hd as HdR.
    assert (Hx : 0 <= 2 * IZR d * rho) by nra.
    rewrite rand_matrix_sparse_run.
    destruct (sp_random d d format rho g) as [[pat g1] | e]; [| reflexivity].
    pose proof (raw_sparse_values_length (length pat) g1) as Hlen.
    split.
    + intros -> E. rewrite E, sqrt_0.
      destruct (Req_dec_T 0 0) as [_ | N]; [reflexivity | contradiction].
    + intros H. destruct scaled.
      * destruct H as [H | H]; [discriminate |].
        destruct (Req_dec_T (sqrt (2 * IZR d * rho)) 0) as [E | _].
        -- exfalso. apply H. apply sqrt_eq_0; assumption.
        -- eexists; eexists. split; [reflexivity |].
           rewrite zip_with_length, length_map. lia.
      * eexists; eexists. split; [reflexivity |].
        rewrite zip_with_length. lia.
Qed.

(** C8. In sparse mode with no density, for [d >= 1], the density is
    [min(0.5, 10/d)]: the call is the call with that density. The places
    that the sparse sampler selects, and only they, receive the sampled
    values: stored entry [c] sits at place [c] of the sampler and holds the
    number whose parts are the normal draws [c] and [k + c] taken after the
    sampler ([k] places selected), divided by [sqrt (2 * d * density)]
    when [scaled] is true; every place outside the selection holds exactly
    zero, and a place selected once holds its sampled value. *)
Theorem rand_matrix_sparse_default (d : Z) (scaled : bool) (format : string)
  (g : rng) :
  (1 <= d)%Z ->
  let rho := Rmin (1 / 2) (10 / IZR d) in
  let s := sqrt (2 * IZR d * rho) in
  rand_matrix sp_random d scaled true format None g =
    rand_matrix sp_random d scaled true format (Some rho) g /\
  0 < rho <= 1 / 2 /\ 0 < s /\
  match sp_random d d format rho g with
  | Raise e => rand_matrix sp_random d scaled true format None g = Raise e
  | Ok (pat, g1) =>
      let k := length pat in
      let place c := nth c pat (0%nat, 0%nat) in
      let re c := normal (draws g1 (cursor g1 + c)%nat) in
      let im c := normal (draws g1 (cursor g1 + k + c)%nat) in
      let value c :=
        if scaled then Fin (mkC (re c / s) (im c / s))
        else Fin (mkC (re c) (im c)) in
      exists t,
        rand_matrix sp_random d scaled true format None g =
          Ok (Sparse d d t, advance k (advance k g1)) /\
        length t = k /\
        (forall c, (c < k)%nat ->
           nth c t (0%nat, 0%nat, NaN)
           = (fst (place c), snd (place c), value c)) /\
        (forall i j, ~ In (i, j) pat -> entry (Sparse d d t) i j = creal 0) /\
        (NoDup pat ->
         forall c, (c < k)%nat ->
           entry (Sparse d d t) (fst (place c)) (snd (place c)) = value c)
  end.
Proof.
  intros Hd rho s. apply IZR_le in Hd as HdR.
  assert (E : rand_matrix sp_random d scaled true format None g =
              rand_matrix sp_random d scaled true format (Some rho) g).
  { unfold rand_matrix at 1. unfold bind at 1. unfold bind at 1.
    unfold bind at 1. rewrite (default_density_ok d g Hd).
    reflexivity. }
  assert (Hq : 0 < 10 / IZR d).
  { apply Rdiv_lt_0_compat; lra. }
  assert (Hrho : 0 < rho <= 1 / 2).
  { unfold rho. split.
    - apply Rmin_glb_lt; lra.
    - apply Rmin_l. }
  assert (Hs : 0 < s) by (apply sqrt_lt_R0; nra).
  split; [exact E |]. split; [exact Hrho |]. split; [exact Hs |].
  rewrite E, rand_matrix_sparse_given by (intros _; fold s; lra).
  destruct (sp_random d d format rho g) as [[pat g1] | e]; [| reflexivity].
  intros k place re im value.
  set (vals := map (fun v => if scaled
                             then cdiv v (creal (sqrt (2 * IZR d * rho)))
                             else v)
                   (raw_sparse_values (length pat) g1)).
  assert (Hlen : length vals = length pat).
  { unfold vals. rewrite length_map. apply raw_sparse_values_length. }
  assert (Hval : forall c, (c < k)%nat -> nth c vals NaN = value c).
  { intros c Hc. unfold vals.
    rewrite (nth_map_default _ _ c NaN NaN)
      by (rewrite raw_sparse_values_length; exact Hc).
    rewrite raw_sparse_values_nth by exact Hc.
    unfold value. destruct scaled; [| reflexivity].
    fold s. rewrite cdiv_real by lra. reflexivity. }
  eexists. split; [reflexivity |]. split; [| split; [| split]].
  - rewrite zip_with_length. fold k. lia.
  - intros c Hc. rewrite sparse_of_triples by (fold k; lia).
    rewrite (Hval c Hc). reflexivity.
  - intros i j Hin. apply (sparse_of_unstored d d pat vals i j Hin).
  - intros Hnd c Hc. rewrite <- (Hval c Hc).
    apply (sparse_of_stored d d pat vals c Hnd); [exact Hc | exact Hlen].
Qed.

End RawEnsemble.

(** A run of C2, dense and sparse: order 2, density 1/2, the sparse
    sampler storing the corner, and draws that all differ. *)
Lemma rand_matrix_scaling_witness :
  (1 <= 2)%Z /\ 0 < 1 / 2 <= 1 /\
  let d := 2%Z in
  let rho := 1 / 2 in
  let g := rng_varied in
  let n := Z.to_nat d in
  (let s := sqrt (2 * IZR d * 1) in
   let g' := advance (n * n) (advance (n * n) g) in
   let re i j := normal (draws g (cursor g + i * n + j)%nat) in
   let im i j := normal (draws g (cursor g + n * n + i * n + j)%nat) in
   0 < s /\
   exists raw a,
     rand_matrix sp_corner d false false "csr"%string (Some rho) g
     = Ok (Dense raw, g') /\
     rand_matrix sp_corner d true false "csr"%string (Some rho) g
     = Ok (Dense a, g') /\
     Dense a = mat_div (Dense raw) (creal s) /\
     square n raw /\ square n a /\
     forall i j, (i < n)%nat -> (j < n)%nat ->
       entry (Dense raw) i j = Fin (mkC (re i j) (im i j)) /\
       entry (Dense a) i j = cdiv (entry (Dense raw) i j) (creal s) /\
       entry (Dense a) i j = Fin (mkC (re i j / s) (im i j / s))) /\
  (let s := sqrt (2 * IZR d * rho) in
   0 < s /\
   match sp_corner d d "csr"%string rho g with
   | Raise e =>
       rand_matrix sp_corner d true true "csr"%string (Some rho) g = Raise e
   | Ok (pat, g1) =>
       let k := length pat in
       let g' := advance k (advance k g1) in
       let place c := nth c pat (0%nat, 0%nat) in
       let re c := normal (draws g1 (cursor g1 + c)%nat) in
       let im c := normal (draws g1 (cursor g1 + k + c)%nat) in
       exists raw t,
         rand_matrix sp_corner d false true "csr"%string (Some rho) g
         = Ok (Sparse d d raw, g') /\
         rand_matrix sp_corner d true true "csr"%string (Some rho) g
         = Ok (Sparse d d t, g') /\
         Sparse d d t = mat_div (Sparse d d raw) (creal s) /\
         length raw = k /\ length t = k /\
         forall c, (c < k)%nat ->
           nth c raw (0%nat, 0%nat, NaN)
           = (fst (place c), snd (place c), Fin (mkC (re c) (im c))) /\
           nth c t (0%nat, 0%nat, NaN)
           = (fst (place c), snd (place c),
              cdiv (snd (nth c raw (0%nat, 0%nat, NaN))) (creal s)) /\
           nth c t (0%nat, 0%nat, NaN)
           = (fst (place c), snd (place c),
              Fin (mkC (re c / s) (im c / s)))
   end).
Proof.
  split; [lia |]. split; [lra |].
  apply (rand_matrix_scaling sp_corner 2 "csr"%string (1 / 2) rng_varied).
  - lia.
  - lra.
Defined.

(** A run of C8: the sparse sampler stores the corner of a matrix of
    order 2, and the draws all differ. *)
Lemma rand_matrix_sparse_default_witness :
  (1 <= 2)%Z /\
  let d := 2%Z in
  let g := rng_varied in
  let rho := Rmin (1 / 2) (10 / IZR d) in
  let s := sqrt (2 * IZR d * rho) in
  rand_matrix sp_corner d true true "csr"%string None g =
    rand_matrix sp_corner d true true "csr"%string (Some rho) g /\
  0 < rho <= 1 / 2 /\ 0 < s /\
  match sp_corner d d "csr"%string rho g with
  | Raise e => rand_matrix sp_corner d true true "csr"%string None g = Raise e
  | Ok (pat, g1) =>
      let k := length pat in
      let place c := nth c pat (0%nat, 0%nat) in
      let re c := normal (draws g1 (cursor g1 + c)%nat) in
      let im c := normal (draws g1 (cursor g1 + k + c)%nat) in
      let value c :=
        if true then Fin (mkC (re c / s) (im c / s))
        else Fin (mkC (re c) (im c)) in
      exists t,
        rand_matrix sp_corner d true true "csr"%string None g =
          Ok (Sparse d d t, advance k (advance k g1)) /\
        length t = k /\
        (forall c, (c < k)%nat ->
           nth c t (0%nat, 0%nat, NaN)
           = (fst (place c), snd (place c), value c)) /\
        (forall i j, ~ In (i, j) pat -> entry (Sparse d d t) i j = creal 0) /\
        (NoDup pat ->
         forall c, (c < k)%nat ->
           entry (Sparse d d t) (fst (place c)) (snd (place c)) = value c)
  end.
Proof.
  split; [lia |].
  apply (rand_matrix_sparse_default sp_corner 2 true "csr"%string rng_varied).
  lia.
Defined.

(** A run of C6: order 2, a density of 5 in dense mode, every density in
    sparse mode. *)
Lemma rand_matrix_unchecked_witness :
  (0 <= 2)%Z /\
  (exists a g',
      rand_matrix sp_corner 2 true false "csr"%string (Some 5) rng_varied
      = Ok (Dense a, g') /\
      rand_matrix sp_corner 2 true false "csr"%string None rng_varied
      = Ok (Dense a, g') /\
      length a = Z.to_nat 2 /\
      (forall row, In row a -> length row = Z.to_nat 2)) /\
  (forall rho,
      0 <= rho ->
      match sp_corner 2 2 "csr"%string rho rng_varied with
      | Raise e =>
          rand_matrix sp_corner 2 true true "csr"%string (Some rho) rng_varied
          = Raise e
      | Ok (pat, _) =>
          (true = true -> 2 * IZR 2 * rho = 0 ->
           rand_matrix sp_corner 2 true true "csr"%string (Some rho) rng_varied
           = Raise ZeroDivisionError) /\
          (true = false \/ 2 * IZR 2 * rho <> 0 ->
           exists t g',
             rand_matrix sp_corner 2 true true "csr"%string (Some rho)
               rng_varied
             = Ok (Sparse 2 2 t, g') /\
             length t = length pat)
      end).
Proof.
  split; [lia |].
  apply (rand_matrix_unchecked sp_corner 2 true "csr"%string (Some 5)
           rng_varied).
  lia.
Defined.

(** The sparse mode at a density of 0: the sparse sampler returns, and the
    division in place of the last line raises. *)
Lemma rand_matrix_sparse_zero_density :
  rand_matrix sp_corner 2 true true "csr"%string (Some 0) rng_varied
  = Raise ZeroDivisionError /\
  exists t g',
    rand_matrix sp_corner 2 false true "csr"%string (Some 0) rng_varied
    = Ok (Sparse 2 2 t, g').
Proof.
  rewrite !rand_matrix_sparse_run. cbn [sp_corner ret].
  replace (2 * IZR 2 * 0) with 0 by ring. rewrite sqrt_0.
  destruct (Req_dec_T 0 0) as [_ | N]; [| contradiction].
  split; [reflexivity |]. eexists; eexists; reflexivity.
Qed.

(** C6 fails on the code: a density of 5, outside [(0, 1]], and an order
    of 0, below 1, both give a matrix and no error. *)
Lemma rand_matrix_validation_counterexample :
  ~ 0 < 5 <= 1 /\
  (exists m g',
      rand_matrix sp_empty 2 true false "csr"%string (Some 5) (rng_const 1 0)
      = Ok (m, g')) /\
  (0 < 1)%Z /\
  rand_matrix sp_empty 0 true false "csr"%string None (rng_const 1 0)
  = Ok (Dense [], rng_const 1 0).
Proof.
  split; [lra |]. split.
  - eexists; eexists.
    apply (rand_matrix_dense_scaled sp_empty 2 "csr"%string (Some 5)
             (rng_const 1 0)).
    lia.
  - split; [lia |]. reflexivity.
Qed.

(** ** The Hermitian and the positive builders *)

Section Builders.

Variable sp_random : Z -> Z -> string -> R -> M (list (nat * nat)).

(** C10. With [sparse] false and no density, [rand_herm] and [rand_pos]
    raise a [TypeError], for every [d >= 1]: the density stays [None], and
    [None / 2], [None / d] are evaluated before [rand_matrix] is called, so
    nothing is sampled. *)
Theorem dense_default_density_type_error (d : Z) (g : rng) :
  (1 <= d)%Z ->
  rand_herm sp_random d false None g = Raise TypeError /\
  rand_pos sp_random d false None g = Raise TypeError.
Proof. intros _. split; reflexivity. Qed.

Lemma rand_herm_given (d : Z) (sparse : bool) (rho : R) (g : rng) :
  rand_herm sp_random d sparse (Some rho) g =
  match rand_matrix sp_random d true sparse "csr"%string (Some (rho / 2)) g with
  | Ok (m, g') =>
      let herm := mat_div m (creal (Rpower 2 (3 / 2))) in
      Ok (mat_add herm (mat_H herm), g')
  | Raise e => Raise e
  end.
Proof.
  unfold rand_herm. cbn [is_none andb].
  unfold bind, py_div_opt, py_div.
  destruct (Req_dec_T 2 0) as [E | _]; [lra |].
  unfold ret.
  destruct (rand_matrix sp_random d true sparse "csr"%string (Some (rho / 2)) g)
    as [[m g'] | e]; reflexivity.
Qed.

Lemma rand_herm_sparse_default (d : Z) (g : rng) :
  (1 <= d)%Z ->
  rand_herm sp_random d true None g =
  rand_herm sp_random d true (Some (Rmin (1 / 2) (10 / IZR d))) g.
Proof.
  intros Hd. unfold rand_herm. cbn [is_none andb].
  unfold bind at 1. unfold bind at 1.
  rewrite (default_density_ok d g Hd). reflexivity.
Qed.

End Builders.

Lemma dense_default_density_type_error_witness :
  (1 <= 2)%Z /\
  rand_herm sp_empty 2 false None (rng_const 1 0) = Raise TypeError /\
  rand_pos sp_empty 2 false None (rng_const 1 0) = Raise TypeError.
Proof.
  split; [lia |].
  apply (dense_default_density_type_error sp_empty 2 (rng_const 1 0)).
  lia.
Defined.

(** ** Symmetrisation *)

Lemma square_ncols (n : nat) (a : list (list cnum)) :
  square n a -> (0 < n)%nat -> ncols a = n.
Proof.
  intros [Hl Hr] Hn. destruct a as [| r a]; simpl in *; [lia |].
  apply Hr; left; reflexivity.
Qed.

Lemma square_row (n : nat) (a : list (list cnum)) (i : nat) :
  square n a -> (i < n)%nat -> length (nth i a []) = n.
Proof.
  intros [Hl Hr] Hi. apply Hr. apply nth_In. lia.
Qed.

(** Entry [(i, j)] of [a + a.H] on a dense square array. *)
Lemma dense_symmetrise_entry (n : nat) (a : list (list cnum)) (i j : nat) :
  square n a -> (i < n)%nat -> (j < n)%nat ->
  entry (mat_add (Dense a) (mat_H (Dense a))) i j =
  cadd (entry (Dense a) i j) (cconj (entry (Dense a) j i)).
Proof.
  intros Hsq Hi Hj. pose proof Hsq as [Hl Hr].
  assert (Hn : (0 < n)%nat) by lia.
  simpl. unfold dense_add.
  rewrite (square_ncols n a Hsq Hn).
  rewrite (zip_with_nth _ _ _ i [] [] [])
    by (rewrite ?length_map, ?length_seq; lia).
  rewrite (map_seq_nth _ n i []) by exact Hi.
  rewrite (zip_with_nth _ _ _ j NaN NaN NaN).
  - f_equal. rewrite (nth_map_default _ a j [] NaN) by lia. reflexivity.
  - rewrite (square_row n a i Hsq Hi); exact Hj.
  - rewrite length_map; lia.
Qed.

Lemma stored_app (t1 t2 : list (nat * nat * cnum)) (i j : nat) :
  stored (t1 ++ t2) i j = cadd (stored t1 i j) (stored t2 i j).
Proof.
  unfold stored. induction t1 as [| [[i' j'] v] t1 IH]; simpl.
  - symmetry; apply cadd_0_l.
  - rewrite IH. destruct (Nat.eqb i i' && Nat.eqb j j')%bool; [| reflexivity].
    apply cadd_assoc.
Qed.

Lemma stored_H (t : list (nat * nat * cnum)) (i j : nat) :
  stored (map (fun e => match e with (i', j', v) => (j', i', cconj v) end) t)
         i j
  = cconj (stored t j i).
Proof.
  unfold stored. induction t as [| [[i' j'] v] t IH]; simpl.
  - symmetry; apply cconj_0.
  - rewrite IH. rewrite (andb_comm (Nat.eqb i j')).
    destruct (Nat.eqb j i' && Nat.eqb i j')%bool; [| reflexivity].
    symmetry; apply cconj_cadd.
Qed.

(** [m + m.H] equals its own conjugate transpose, and its entry [(i, j)]
    is the entry [(i, j)] of [m] plus the conjugate of its entry [(j, i)]. *)
Lemma symmetrise_hermitian (n : nat) (m : mat) :
  match m with Dense a => square n a | Sparse _ _ _ => True end ->
  (forall i j, (i < n)%nat -> (j < n)%nat ->
     entry (mat_add m (mat_H m)) i j =
     cadd (entry m i j) (cconj (entry m j i))) /\
  hermitian n (mat_add m (mat_H m)).
Proof.
  intros Hm.
  assert (E : forall i j, (i < n)%nat -> (j < n)%nat ->
     entry (mat_add m (mat_H m)) i j =
     cadd (entry m i j) (cconj (entry m j i))).
  { intros i j Hi Hj. destruct m as [a | nr nc t].
    - apply dense_symmetrise_entry with (n := n); assumption.
    - simpl. rewrite stored_app, stored_H. reflexivity. }
  split; [exact E |].
  intros i j Hi Hj. rewrite (E i j Hi Hj), (E j i Hj Hi).
  rewrite cconj_cadd, cconj_invol. apply cadd_comm.
Qed.

Lemma cdiv_NaN_l (x : cnum) : cdiv NaN x = NaN.
Proof. reflexivity. Qed.

Lemma cdiv_0_real (s : R) : s <> 0 -> cdiv (creal 0) (creal s) = creal 0.
Proof.
  intros Hs. unfold creal at 1. rewrite cdiv_real by exact Hs. simpl.
  unfold creal. f_equal. apply C_eq; field; exact Hs.
Qed.

(** [m / s] for a real [s] that is not zero, entry by entry. *)
Lemma mat_div_entry (m : mat) (s : R) (i j : nat) :
  s <> 0 -> entry (mat_div m (creal s)) i j = cdiv (entry m i j) (creal s).
Proof.
  intros Hs. destruct m as [a | nr nc t]; simpl.
  - destruct (Nat.lt_ge_cases i (length a)) as [Hi | Hi].
    + rewrite (nth_map_default _ a i [] []) by exact Hi.
      destruct (Nat.lt_ge_cases j (length (nth i a []))) as [Hj | Hj].
      * rewrite (nth_map_default _ _ j NaN NaN) by exact Hj. reflexivity.
      * rewrite !nth_overflow by (rewrite ?length_map; exact Hj). reflexivity.
    + rewrite (nth_overflow (map _ a)) by (rewrite length_map; exact Hi).
      rewrite (nth_overflow a) by exact Hi.
      rewrite !nth_nil. reflexivity.
  - unfold stored. induction t as [| [[i' j'] v] t IH]; simpl.
    + symmetry; apply cdiv_0_real; exact Hs.
    + rewrite IH. destruct (Nat.eqb i i' && Nat.eqb j j')%bool; [| reflexivity].
      symmetry; apply cdiv_cadd_real.
Qed.

Lemma mat_div_shape (n : nat) (m : mat) (x : cnum) :
  match m with Dense a => square n a | Sparse _ _ _ => True end ->
  match mat_div m x with Dense a => square n a | Sparse _ _ _ => True end.
Proof.
  destruct m as [a | nr nc t]; simpl; [| trivial].
  intros [Hl Hr]. split.
  - rewrite length_map; exact Hl.
  - intros row Hin. apply in_map_iff in Hin as [r0 [<- Hin]].
    rewrite length_map. apply Hr; exact Hin.
Qed.

Section HermitianBuilder.

Variable sp_random : Z -> Z -> string -> R -> M (list (nat * nat)).

Lemma rand_matrix_shape (d : Z) (scaled sparse : bool) (format : string)
  (density : option R) (g g' : rng) (m : mat) :
  rand_matrix sp_random d scaled sparse format density g = Ok (m, g') ->
  match m with Dense a => square (Z.to_nat d) a | Sparse _ _ _ => True end.
Proof.
  destruct sparse.
  - assert (G : forall rho g0,
               rand_matrix sp_random d scaled true format (Some rho) g0
               = Ok (m, g') ->
               match m with
               | Dense a => square (Z.to_nat d) a
               | Sparse _ _ _ => True
               end).
    { intros rho g0. rewrite rand_matrix_sparse_run.
      destruct (sp_random d d format rho g0) as [[pat g1] | e];
        [| discriminate].
      destruct scaled.
      - destruct (Req_dec_T (sqrt (2 * IZR d * rho)) 0); [discriminate |].
        intros H; injection H as <- _. exact I.
      - intros H; injection H as <- _. exact I. }
    destruct density as [rho |]; [apply G |].
    unfold rand_matrix. unfold bind at 1. unfold bind at 1. unfold bind at 1.
    destruct (default_density d g) as [[rho g0] | e] eqn:E; [| discriminate].
    intros H. apply (G rho g0). rewrite <- H.
    unfold rand_matrix. unfold bind at 1. unfold bind at 1. unfold bind at 1.
    reflexivity.
  - destruct (Z.lt_ge_cases d 0) as [Hd | Hd].
    + unfold rand_matrix, bind. rewrite (randn2_negative d d g Hd).
      discriminate.
    + destruct scaled.
      * rewrite (rand_matrix_dense_scaled sp_random d format density g Hd).
        intros H; injection H as <- _.
        destruct (raw_dense_shape (Z.to_nat d) g) as [Hl Hr]. split.
        -- rewrite length_map; exact Hl.
        -- intros row Hin. apply in_map_iff in Hin as [r0 [<- Hin]].
           rewrite length_map. apply Hr; exact Hin.
      * rewrite (rand_matrix_dense_raw sp_random d format density g Hd).
        intros H; injection H as <- _. apply raw_dense_shape.
Qed.

(** With a density to halve, [rand_herm] is [(M + M.H) / 2 ** 1.5] for
    the scaled sample [M] of half that density, and it equals its own
    conjugate transpose. *)
Lemma rand_herm_symmetrised (d : Z) (sparse : bool) (rho : R) (g : rng) :
  match rand_matrix sp_random d true sparse "csr"%string (Some (rho / 2)) g with
  | Raise e => rand_herm sp_random d sparse (Some rho) g = Raise e
  | Ok (M0, g') =>
      exists H,
        rand_herm sp_random d sparse (Some rho) g = Ok (H, g') /\
        (forall i j, (i < Z.to_nat d)%nat -> (j < Z.to_nat d)%nat ->
           entry H i j =
           cdiv (cadd (entry M0 i j) (cconj (entry M0 j i)))
                (creal (Rpower 2 (3 / 2)))) /\
        hermitian (Z.to_nat d) H
  end.
Proof.
  rewrite rand_herm_given.
  destruct (rand_matrix sp_random d true sparse "csr"%string (Some (rho / 2)) g)
    as [[M0 g'] | e] eqn:E; [| reflexivity].
  eexists. split; [reflexivity |].
  assert (Hs : Rpower 2 (3 / 2) <> 0).
  { unfold Rpower. pose proof (exp_pos (3 / 2 * ln 2)). lra. }
  pose proof (rand_matrix_shape _ _ _ _ _ _ _ _ E) as Hshape.
  apply (mat_div_shape _ _ (creal (Rpower 2 (3 / 2)))) in Hshape.
  destruct (symmetrise_hermitian _ _ Hshape) as [Hent Hherm].
  split; [| exact Hherm].
  intros i j Hi Hj. rewrite (Hent i j Hi Hj).
  rewrite !mat_div_entry by exact Hs.
  rewrite cconj_cdiv_real, cdiv_cadd_real. reflexivity.
Qed.

End HermitianBuilder.

(** C3 at the default call: [rand_herm(2)], dense and with no density,
    raises a [TypeError] and returns no matrix, while the same call with a
    density returns its Hermitian matrix. *)
Theorem rand_herm_default_call_fails :
  rand_herm sp_empty 2 false None (rng_const 1 0) = Raise TypeError /\
  exists H g',
    rand_herm sp_empty 2 false (Some 1) (rng_const 1 0) = Ok (H, g') /\
    hermitian 2 H.
Proof.
  split; [reflexivity |].
  pose proof (rand_herm_symmetrised sp_empty 2 false 1 (rng_const 1 0)) as P.
  rewrite (rand_matrix_dense_scaled sp_empty 2 "csr"%string (Some (1 / 2))
             (rng_const 1 0)) in P by lia.
  destruct P as [H [E [_ Hh]]].
  exists H. eexists. split; [exact E | exact Hh].
Qed.

(** ** The Haar unitary *)

Lemma Cmod_neq0 (z : C) : z <> C0 -> Cmod z <> 0.
Proof.
  intros Hz Hm. apply Hz. destruct z as [a b].
  unfold Cmod, Cnorm2 in Hm; simpl in Hm.
  apply sqrt_eq_0 in Hm; [| nra].
  unfold C0. apply C_eq; nra.
Qed.


(** The phase of zero is not a number. *)
Lemma phase_zero : cdiv (creal 0) (cabs (creal 0)) = NaN.
Proof.
  assert (E : Cmod (mkC 0 0) = 0).
  { unfold Cmod, Cnorm2; simpl.
    replace (0 * 0 + 0 * 0) with 0 by ring. apply sqrt_0. }
  change (cabs (creal 0)) with (creal (Cmod (mkC 0 0))).
  rewrite E. apply cdiv_zero.
Qed.

Lemma cmul_NaN_r (x : cnum) : cmul x NaN = NaN.
Proof. destruct x; reflexivity. Qed.

Lemma nth_Fin_in_range (l : list cnum) (k : nat) (z : C) :
  nth k l NaN = Fin z -> (k < length l)%nat.
Proof.
  intros H. destruct (Nat.lt_ge_cases k (length l)) as [Hk | Hk]; [exact Hk |].
  rewrite nth_overflow in H by exact Hk. discriminate.
Qed.

(** Entry [(i, j)] of [q . diag(v)]. *)
Lemma rdmul_entry (q : list (list cnum)) (v : list cnum) (i j : nat) :
  (i < length q)%nat -> (j < length (nth i q []))%nat -> (j < length v)%nat ->
  entry (rdmul q v) i j = cmul (nth j (nth i q []) NaN) (nth j v NaN).
Proof.
  intros Hi Hj Hv. unfold rdmul, entry.
  rewrite (nth_map_default _ q i [] []) by exact Hi.
  apply zip_with_nth; assumption.
Qed.






Section Haar.

Variable sp_random : Z -> Z -> string -> R -> M (list (nat * nat)).
Variable qr : list (list cnum) -> list (list cnum) * list (list cnum).

Lemma rand_uni_run (d : Z) (g : rng) :
  (0 <= d)%Z ->
  rand_uni sp_random qr d g =
  Ok (rdmul (fst (qr (scaled_dense d g)))
            (phases (diagonal (snd (qr (scaled_dense d g))))),
      advance (Z.to_nat d * Z.to_nat d)
              (advance (Z.to_nat d * Z.to_nat d) g)).
Proof.
  intros Hd. unfold rand_uni, bind.
  rewrite (rand_matrix_dense_scaled sp_random d "csr"%string None g Hd).
  cbn [dense_of]. fold (scaled_dense d g).
  destruct (qr (scaled_dense d g)) as [q r]. reflexivity.
Qed.



(** C9, as the code has it. For [d >= 2], [rand_uni] raises nothing and
    samples once, whatever the factor [R] is: it draws its one ensemble
    matrix (twice [d * d] normal draws) and returns [Q . diag(lam)]. Where
    a diagonal entry of [R] is exactly zero, the entry of [lam] is [0/0],
    not a number, and so is column [k] of the matrix returned. *)
Theorem rand_uni_zero_diagonal (d : Z) (g : rng) :
  (2 <= d)%Z ->
  let M0 := scaled_dense d g in
  let q := fst (qr M0) in
  let lam := phases (diagonal (snd (qr M0))) in
  rand_uni sp_random qr d g =
    Ok (rdmul q lam,
        advance (Z.to_nat d * Z.to_nat d)
                (advance (Z.to_nat d * Z.to_nat d) g)) /\
  (forall k, nth k (diagonal (snd (qr M0))) NaN = creal 0 ->
             nth k lam NaN = NaN /\
             forall i, (i < length q)%nat -> (k < length (nth i q []))%nat ->
                       entry (rdmul q lam) i k = NaN).
Proof.
  intros Hd M0 q lam. split; [apply rand_uni_run; lia |].
  intros k Hk.
  assert (Hlen : (k < length (diagonal (snd (qr M0))))%nat)
    by (eapply nth_Fin_in_range; exact Hk).
  assert (Hlam : nth k lam NaN = NaN).
  { unfold lam, phases.
    rewrite (nth_map_default _ _ k NaN NaN) by exact Hlen.
    rewrite Hk. apply phase_zero. }
  split; [exact Hlam |].
  intros i Hi Hj. rewrite rdmul_entry.
  - rewrite Hlam. apply cmul_NaN_r.
  - exact Hi.
  - exact Hj.
  - unfold lam, phases. rewrite length_map. exact Hlen.
Qed.

End Haar.

Lemma sqrt_2_2_1 : sqrt (2 * IZR 2 * 1) = 2.
Proof.
  replace (2 * IZR 2 * 1) with (2 * 2) by ring.
  apply sqrt_square; lra.
Qed.

Lemma scaled_dense_2_ones :
  scaled_dense 2 (rng_const 1 0) =
  [[Fin (mkC (1 / 2) (1 / 2)); Fin (mkC (1 / 2) (1 / 2))];
   [Fin (mkC (1 / 2) (1 / 2)); Fin (mkC (1 / 2) (1 / 2))]].
Proof.
  unfold scaled_dense. rewrite sqrt_2_2_1.
  assert (E : cdiv (Fin (mkC 1 1)) (creal 2) = Fin (mkC (1 / 2) (1 / 2))).
  { rewrite cdiv_real by lra. reflexivity. }
  cbv [raw_dense Z.to_nat Pos.to_nat Pos.iter_op Nat.add seq map rng_const
       draws cursor const_draw normal].
  rewrite E. reflexivity.
Qed.

Lemma scaled_dense_2_zeros :
  scaled_dense 2 (rng_const 0 0) =
  [[creal 0; creal 0]; [creal 0; creal 0]].
Proof.
  unfold scaled_dense. rewrite sqrt_2_2_1.
  assert (E : cdiv (Fin (mkC 0 0)) (creal 2) = creal 0).
  { rewrite cdiv_real by lra. unfold creal. f_equal. simpl.
    apply C_eq; field. }
  cbv [raw_dense Z.to_nat Pos.to_nat Pos.iter_op Nat.add seq map rng_const
       draws cursor const_draw normal].
  rewrite E. reflexivity.
Qed.

(** C9 fails on the code: with every normal draw equal to 0 the sample is
    the zero matrix, whose triangular factor is zero ([qr_trivial] gives
    its decomposition [I . 0]); [rand_uni] raises nothing and draws nothing
    more: it returns a matrix whose entries are all not a number. *)
Lemma rand_uni_zero_diagonal_counterexample :
  diagonal (snd (qr_trivial (scaled_dense 2 (rng_const 0 0))))
  = [creal 0; creal 0] /\
  rand_uni sp_empty qr_trivial 2 (rng_const 0 0) =
  Ok (Dense [[NaN; NaN]; [NaN; NaN]], advance 4 (advance 4 (rng_const 0 0))).
Proof.
  split; [rewrite scaled_dense_2_zeros; reflexivity |].
  rewrite rand_uni_run by lia.
  rewrite scaled_dense_2_zeros.
  change (diagonal (snd (qr_trivial [[creal 0; creal 0]; [creal 0; creal 0]])))
    with [creal 0; creal 0].
  change (phases [creal 0; creal 0])
    with [cdiv (creal 0) (cabs (creal 0)); cdiv (creal 0) (cabs (creal 0))].
  rewrite phase_zero. reflexivity.
Qed.


(** A raw sample of order 2 that is upper triangular, with the diagonal
    [1] and [1 + i]: [(I, M)] is a QR decomposition of it. *)
Lemma raw_dense_2_triangular :
  raw_dense 2 (rng_normals [1; 1; 0; 1; 0; 1; 0; 1]) =
  [[Fin (mkC 1 0); Fin (mkC 1 1)]; [Fin (mkC 0 0); Fin (mkC 1 1)]].
Proof. reflexivity. Qed.



(** A run of C9, on the zero sample. *)
Lemma rand_uni_zero_diagonal_witness :
  (2 <= 2)%Z /\
  let M0 := scaled_dense 2 (rng_const 0 0) in
  let q := fst (qr_trivial M0) in
  let lam := phases (diagonal (snd (qr_trivial M0))) in
  rand_uni sp_empty qr_trivial 2 (rng_const 0 0) =
    Ok (rdmul q lam,
        advance (Z.to_nat 2 * Z.to_nat 2)
                (advance (Z.to_nat 2 * Z.to_nat 2) (rng_const 0 0))) /\
  (forall k, nth k (diagonal (snd (qr_trivial M0))) NaN = creal 0 ->
             nth k lam NaN = NaN /\
             forall i, (i < length q)%nat -> (k < length (nth i q []))%nat ->
                       entry (rdmul q lam) i k = NaN).
Proof.
  split; [lia |].
  apply (rand_uni_zero_diagonal sp_empty qr_trivial 2 (rng_const 0 0)).
  lia.
Defined.

(** ** The stream of Haar states *)

Lemma ceil_div_step (d n : Z) :
  (0 < d)%Z -> (0 <= n)%Z ->
  ((n + 1 + d - 1) / d =
   (n + d - 1) / d + (if n mod d =? 0 then 1 else 0))%Z.
Proof.
  intros Hd Hn.
  pose proof (Z.div_mod n d ltac:(lia)) as H.
  pose proof (Z.mod_pos_bound n d Hd) as B.
  replace (n + 1 + d - 1)%Z with (n + d)%Z by lia.
  destruct (n mod d =? 0)%Z eqn:E.
  - apply Z.eqb_eq in E.
    rewrite <- (Z.div_unique (n + d) d (n / d + 1) 0) by nia.
    rewrite <- (Z.div_unique (n + d - 1) d (n / d) (d - 1)) by nia.
    lia.
  - apply Z.eqb_neq in E.
    rewrite <- (Z.div_unique (n + d) d (n / d + 1) (n mod d)) by nia.
    rewrite <- (Z.div_unique (n + d - 1) d (n / d + 1) (n mod d - 1)) by nia.
    lia.
Qed.

Lemma ceil_div_multiple (d n : Z) :
  (0 < d)%Z -> (0 <= n)%Z -> (n mod d = 0)%Z -> ((n + d - 1) / d = n / d)%Z.
Proof.
  intros Hd Hn E.
  pose proof (Z.div_mod n d ltac:(lia)) as H.
  symmetry. apply (Z.div_unique (n + d - 1) d (n / d) (d - 1)); nia.
Qed.

Lemma div_pred_same (d n : Z) :
  (0 < d)%Z -> (0 <= n)%Z -> (n mod d <> 0)%Z -> ((n - 1) / d = n / d)%Z.
Proof.
  intros Hd Hn E.
  pose proof (Z.div_mod n d ltac:(lia)) as H.
  pose proof (Z.mod_pos_bound n d Hd) as B.
  symmetry. apply (Z.div_unique (n - 1) d (n / d) (n mod d - 1)); nia.
Qed.

(** A unitary is sampled at emission [k] exactly when [k mod d] is 0. *)
Lemma sampled_step (d : Z) (k : nat) :
  (0 < d)%Z ->
  sampled d (S k) =
  (sampled d k + (if (Z.of_nat k mod d =? 0)%Z then 1 else 0))%nat.
Proof.
  intros Hd. unfold sampled.
  rewrite Nat2Z.inj_succ. unfold Z.succ.
  rewrite ceil_div_step by lia.
  assert (0 <= (Z.of_nat k + d - 1) / d)%Z by (apply Z.div_pos; lia).
  destruct (Z.of_nat k mod d =? 0)%Z; lia.
Qed.

Lemma after_samples_next (d : Z) (j : nat) (g : rng) :
  advance (Z.to_nat d * Z.to_nat d)
          (advance (Z.to_nat d * Z.to_nat d) (after_samples d j g))
  = after_samples d (S j) g.
Proof.
  unfold advance, after_samples; simpl. f_equal. lia.
Qed.

Lemma column_in_range (m : mat) (j : Z) (g : rng) :
  (0 <= j < Z.of_nat (ncols (dense_of m)))%Z ->
  column m j g = Ok (column_of m (Z.to_nat j), g).
Proof.
  intros Hj. unfold column, column_of, ret.
  replace (j <? 0)%Z with false by (symmetry; apply Z.ltb_ge; lia).
  replace (0 <=? j)%Z with true by (symmetry; apply Z.leb_le; lia).
  replace (j <? Z.of_nat (ncols (dense_of m)))%Z with true
    by (symmetry; apply Z.ltb_lt; lia).
  reflexivity.
Qed.

Lemma scaled_dense_square (d : Z) (g : rng) :
  square (Z.to_nat d) (scaled_dense d g).
Proof.
  destruct (raw_dense_shape (Z.to_nat d) g) as [Hl Hr].
  unfold scaled_dense. split.
  - rewrite length_map; exact Hl.
  - intros row Hin. apply in_map_iff in Hin as [r0 [<- Hin]].
    rewrite length_map. apply Hr; exact Hin.
Qed.

Section HaarStream.

Variable sp_random : Z -> Z -> string -> R -> M (list (nat * nat)).
Variable qr : list (list cnum) -> list (list cnum) * list (list cnum).

(** The contract of the QR routine on shapes: the factors of a square
    array of order [n] are square of order [n]. *)
Hypothesis qr_square :
  forall n a, square n a -> square n (fst (qr a)) /\ square n (snd (qr a)).

Lemma haar_of_ncols (d : Z) (g : rng) :
  (1 <= d)%Z -> ncols (dense_of (haar_of qr d g)) = Z.to_nat d.
Proof.
  intros Hd.
  destruct (qr_square _ _ (scaled_dense_square d g)) as [Hq Hr].
  unfold haar_of, rdmul. cbn [dense_of].
  set (q := fst (qr (scaled_dense d g))) in *.
  set (r := snd (qr (scaled_dense d g))) in *.
  assert (Hn : (0 < Z.to_nat d)%nat) by lia.
  assert (Hlam : length (phases (diagonal r)) = Z.to_nat d).
  { unfold phases, diagonal. rewrite !length_map, length_seq.
    rewrite (square_ncols _ r Hr Hn).
    destruct Hr as [Hl _]. rewrite Hl. lia. }
  destruct Hq as [Hl Hrow].
  destruct q as [| row q']; simpl in *; [lia |].
  rewrite zip_with_length, Hlam, (Hrow row) by (left; reflexivity). lia.
Qed.

(** One [next]: emission [k] is column [k mod d] of the unitary in use,
    and the generator state moves on by one sample exactly when
    [k mod d] is 0. *)
Lemma gen_next_step (d count : Z) (g : rng) (k : nat) :
  (1 <= d)%Z -> (Z.of_nat k < count)%Z ->
  gen_next sp_random qr d count (mkGen (Z.of_nat k) (cached qr d g k))
           (after_samples d (sampled d k) g) =
  Ok ((Some (column_of (unitary_at qr d g k) (Z.to_nat (Z.of_nat k mod d))),
       mkGen (Z.of_nat (S k)) (cached qr d g (S k))),
      after_samples d (sampled d (S k)) g).
Proof.
  intros Hd Hk.
  pose proof (Z.mod_pos_bound (Z.of_nat k) d ltac:(lia)) as Hmod.
  unfold gen_next. cbn [gen_rep gen_u].
  replace (Z.of_nat k <? count)%Z with true by (symmetry; apply Z.ltb_lt; lia).
  unfold py_mod.
  replace (d =? 0)%Z with false by (symmetry; apply Z.eqb_neq; lia).
  unfold bind at 1. unfold ret at 1.
  rewrite (sampled_step d k) by lia.
  rewrite Nat2Z.inj_succ. unfold Z.succ.
  destruct (Z.of_nat k mod d =? 0)%Z eqn:E.
  - apply Z.eqb_eq in E.
    assert (Es : sampled d k = Z.to_nat (Z.of_nat k / d)).
    { unfold sampled. rewrite ceil_div_multiple by lia. reflexivity. }
    unfold bind at 1. unfold bind at 1.
    rewrite rand_uni_run by lia.
    rewrite after_samples_next. unfold ret at 1.
    unfold bind at 1.
    rewrite column_in_range
      by (cbn [dense_of]; fold (haar_of qr d (after_samples d (sampled d k) g));
          rewrite haar_of_ncols by lia; lia).
    unfold ret. cbn [cached]. unfold unitary_at, haar_of.
    rewrite Es. replace (Z.to_nat (Z.of_nat k / d) + 1)%nat
      with (S (Z.to_nat (Z.of_nat k / d))) by lia.
    reflexivity.
  - apply Z.eqb_neq in E.
    destruct k as [| k']; [exfalso; apply E; reflexivity |].
    unfold bind at 1. unfold ret at 1. cbn [cached].
    assert (Eu : unitary_at qr d g k' = unitary_at qr d g (S k')).
    { unfold unitary_at. do 3 f_equal.
      rewrite <- (div_pred_same d (Z.of_nat (S k'))) by lia.
      f_equal. lia. }
    unfold bind at 1.
    rewrite column_in_range
      by (unfold unitary_at; rewrite haar_of_ncols by lia; lia).
    unfold ret. rewrite Eu. rewrite Nat.add_0_r. reflexivity.
Qed.

Lemma gen_take_from (d count : Z) (g : rng) (n : nat) :
  (1 <= d)%Z ->
  forall k, (Z.of_nat (k + n) <= count)%Z ->
  gen_take sp_random qr d count n (mkGen (Z.of_nat k) (cached qr d g k))
           (after_samples d (sampled d k) g) =
  Ok ((map (fun i => column_of (unitary_at qr d g i)
                               (Z.to_nat (Z.of_nat i mod d)))
           (seq k n),
       mkGen (Z.of_nat (k + n)) (cached qr d g (k + n))),
      after_samples d (sampled d (k + n)) g).
Proof.
  intros Hd. induction n as [| n IH]; intros k Hk.
  - simpl. unfold ret. rewrite Nat.add_0_r. reflexivity.
  - cbn [gen_take]. unfold bind at 1.
    rewrite gen_next_step by lia.
    unfold bind at 1. rewrite (IH (S k)) by lia.
    unfold ret. cbn [seq map].
    replace (S k + n)%nat with (k + S n)%nat by lia. reflexivity.
Qed.

(** C5. For [d >= 2] and [count >= 1], the stream emits [count] states.
    Emission [k] is column [cyc = k mod d] of the unitary in use. A fresh
    unitary is sampled at emission [k] exactly when [cyc] is 0: the
    generator state moves on by one sample then and stays as it is
    otherwise, and the unitary in use from there is the one sampled at
    that state. So one unitary is sampled every [d] emissions: one in the
    first [d] emissions, and the second at emission [d]. After [count]
    emissions the stream is over. *)
Theorem haar_state_stream_cycle (d count : Z) (g : rng) :
  (2 <= d)%Z -> (1 <= count)%Z ->
  gen_take sp_random qr d count (Z.to_nat count) gen_rand_haar_states g =
    Ok ((map (fun k => column_of (unitary_at qr d g k)
                                 (Z.to_nat (Z.of_nat k mod d)))
             (seq 0 (Z.to_nat count)),
         mkGen count (cached qr d g (Z.to_nat count))),
        after_samples d (sampled d (Z.to_nat count)) g) /\
  (forall k, (Z.of_nat k < count)%Z ->
     gen_next sp_random qr d count (mkGen (Z.of_nat k) (cached qr d g k))
              (after_samples d (sampled d k) g) =
     Ok ((Some (column_of (unitary_at qr d g k)
                          (Z.to_nat (Z.of_nat k mod d))),
          mkGen (Z.of_nat (S k)) (cached qr d g (S k))),
         after_samples d (sampled d (S k)) g)) /\
  (forall k, sampled d (S k) =
             (sampled d k + (if (Z.of_nat k mod d =? 0)%Z then 1 else 0))%nat) /\
  (forall k, (Z.of_nat k mod d = 0)%Z ->
     rand_uni sp_random qr d (after_samples d (sampled d k) g) =
     Ok (unitary_at qr d g k, after_samples d (S (sampled d k)) g)) /\
  sampled d (Z.to_nat d) = 1%nat /\
  sampled d (S (Z.to_nat d)) = 2%nat /\
  (forall u g',
     gen_next sp_random qr d count (mkGen count u) g' =
     Ok ((None, mkGen count u), g')).
Proof.
  intros Hd Hc.
  assert (Hd1 : sampled d (Z.to_nat d) = 1%nat).
  { unfold sampled. rewrite Z2Nat.id by lia.
    rewrite <- (Z.div_unique (d + d - 1) d 1 (d - 1)) by lia. reflexivity. }
  split; [| split; [| split; [| split; [| split; [| split]]]]].
  - pose proof (gen_take_from d count g (Z.to_nat count) ltac:(lia) 0%nat) as P.
    cbn [Nat.add] in P. rewrite Z2Nat.id in P by lia.
    assert (E0 : after_samples d (sampled d 0) g = g).
    { unfold sampled. cbn [Z.of_nat].
      rewrite <- (Z.div_unique (0 + d - 1) d 0 (d - 1)) by lia.
      destruct g as [dr c]. unfold after_samples; simpl. f_equal. lia. }
    rewrite E0 in P. apply P. lia.
  - intros k Hk. apply gen_next_step; lia.
  - intros k. apply sampled_step; lia.
  - intros k Hk. rewrite rand_uni_run by lia.
    rewrite after_samples_next. unfold unitary_at, haar_of.
    assert (Es : sampled d k = Z.to_nat (Z.of_nat k / d)).
    { unfold sampled. rewrite ceil_div_multiple by lia. reflexivity. }
    rewrite Es. reflexivity.
  - exact Hd1.
  - rewrite sampled_step by lia. rewrite Hd1.
    rewrite Z2Nat.id by lia. rewrite Z.mod_same by lia. reflexivity.
  - intros u g'. unfold gen_next. cbn [gen_rep].
    rewrite Z.ltb_irrefl. reflexivity.
Qed.

End HaarStream.

Lemma identity_square (n : nat) : square n (identity n).
Proof.
  unfold identity. split.
  - rewrite length_map, length_seq; reflexivity.
  - intros row Hin. apply in_map_iff in Hin as [i [<- _]].
    rewrite length_map, length_seq; reflexivity.
Qed.

Lemma qr_trivial_square (n : nat) (a : list (list cnum)) :
  square n a ->
  square n (fst (qr_trivial a)) /\ square n (snd (qr_trivial a)).
Proof.
  intros Ha. unfold qr_trivial; cbn [fst snd]. split; [| exact Ha].
  destruct Ha as [Hl _]. rewrite Hl. apply identity_square.
Qed.

(** A run of C5: four emissions of order 2. *)
Lemma haar_state_stream_cycle_witness :
  (2 <= 2)%Z /\ (1 <= 4)%Z /\
  gen_take sp_empty qr_trivial 2 4 (Z.to_nat 4) gen_rand_haar_states
           (rng_const 1 0) =
    Ok ((map (fun k => column_of (unitary_at qr_trivial 2 (rng_const 1 0) k)
                                 (Z.to_nat (Z.of_nat k mod 2)))
             (seq 0 (Z.to_nat 4)),
         mkGen 4 (cached qr_trivial 2 (rng_const 1 0) (Z.to_nat 4))),
        after_samples 2 (sampled 2 (Z.to_nat 4)) (rng_const 1 0)) /\
  sampled 2 (Z.to_nat 2) = 1%nat /\
  sampled 2 (S (Z.to_nat 2)) = 2%nat.
Proof.
  split; [lia |]. split; [lia |].
  pose proof (haar_state_stream_cycle sp_empty qr_trivial qr_trivial_square
                2 4 (rng_const 1 0) ltac:(lia) ltac:(lia))
    as [Hrun [_ [_ [_ [H1 [H2 _]]]]]].
  split; [exact Hrun |]. split; [exact H1 | exact H2].
Defined.

(** ** The product state *)

Lemma csum_app (l1 l2 : list cnum) :
  csum (l1 ++ l2) = cadd (csum l1) (csum l2).
Proof.
  unfold csum. induction l1 as [| x l1 IH]; simpl.
  - symmetry; apply cadd_0_l.
  - rewrite IH. apply cadd_assoc.
Qed.

Lemma norm2_app (a b : list (list cnum)) :
  norm2 (a ++ b) = cadd (norm2 a) (norm2 b).
Proof. unfold norm2. rewrite concat_app, map_app. apply csum_app. Qed.

Lemma cabs2_cmul (x y : cnum) : cabs2 (cmul x y) = cmul (cabs2 x) (cabs2 y).
Proof.
  destruct x as [a |], y as [b |]; simpl; auto.
  unfold creal. f_equal. unfold Cnorm2, Cmult; simpl. apply C_eq; ring.
Qed.

Lemma csum_scale (z : C) (l : list cnum) :
  csum (map (cmul (Fin z)) l) = cmul (Fin z) (csum l).
Proof.
  unfold csum. induction l as [| y l IH]; simpl.
  - unfold creal. f_equal. unfold Cmult; simpl. apply C_eq; ring.
  - rewrite IH. destruct y as [b |]; [| reflexivity].
    destruct (fold_right cadd (creal 0) l) as [c |]; [| reflexivity].
    simpl. f_equal. unfold Cmult, Cplus; simpl. apply C_eq; ring.
Qed.

(** Scaling every entry by a number scales the squared norm by its squared
    modulus. *)
Lemma norm2_scale (z : C) (b : list (list cnum)) :
  norm2 (map (map (cmul (Fin z))) b) = cmul (cabs2 (Fin z)) (norm2 b).
Proof.
  unfold norm2. rewrite <- concat_map, map_map.
  rewrite (map_ext _ (fun y => cmul (cabs2 (Fin z)) (cabs2 y)))
    by (intros y; apply cabs2_cmul).
  rewrite <- (map_map cabs2 (cmul (cabs2 (Fin z)))).
  apply csum_scale.
Qed.

Lemma kron2_qubit (x y : cnum) (b : list (list cnum)) :
  kron2 [[x]; [y]] b = map (map (cmul x)) b ++ map (map (cmul y)) b.
Proof.
  unfold kron2. cbn [flat_map]. rewrite !app_nil_r.
  f_equal; apply map_ext; intros rb; apply app_nil_r.
Qed.

(** A qubit state has unit norm: its squared moduli add up to 1. *)
Lemma qubit_of_unit (u v : R) :
  exists zx zy,
    qubit_of u v = [[Fin zx]; [Fin zy]] /\ Cnorm2 zx + Cnorm2 zy = 1.
Proof.
  unfold qubit_of, exp_i, creal. cbn [cmul].
  eexists; eexists. split; [reflexivity |].
  unfold Cnorm2, Cmult; simpl.
  set (t := acos (2 * v - 1) / 2). set (p := 2 * PI * u).
  pose proof (sin2_cos2 t) as Ht. pose proof (sin2_cos2 p) as Hp.
  unfold Rsqr in Ht, Hp. nra.
Qed.

Lemma kron2_qubit_shape (x y : cnum) (n : nat) (b : list (list cnum)) :
  column_shape n b -> column_shape (2 * n) (kron2 [[x]; [y]] b).
Proof.
  intros [Hl Hr]. rewrite kron2_qubit. split.
  - rewrite length_app, !length_map. lia.
  - intros row Hin. apply in_app_or in Hin.
    destruct Hin as [Hin | Hin]; apply in_map_iff in Hin as [r0 [<- Hin]];
      rewrite length_map; apply Hr; exact Hin.
Qed.

Lemma kron2_qubit_norm (u v : R) (b : list (list cnum)) :
  norm2 b = creal 1 -> norm2 (kron2 (qubit_of u v) b) = creal 1.
Proof.
  intros Hb. destruct (qubit_of_unit u v) as [zx [zy [E Hn]]].
  rewrite E, kron2_qubit, norm2_app, !norm2_scale, Hb.
  unfold cabs2, creal, cmul, cadd. f_equal.
  unfold Cmult, Cplus; cbn [Re Im].
  apply C_eq; [lra | ring].
Qed.

(** The tensor product of qubit states is a column of [2 ^ n] entries of
    unit norm. *)
Lemma kron_qubits_unit (l : list (R * R)) :
  exists a,
    kron (map (fun p => Dense (qubit_of (fst p) (snd p))) l) = Dense a /\
    column_shape (2 ^ length l) a /\ norm2 a = creal 1.
Proof.
  unfold kron. eexists. split; [reflexivity |].
  induction l as [| [u v] l [IHs IHn]]; cbn [map fold_right length].
  - split.
    + split; [reflexivity |]. intros row [<- | []]. reflexivity.
    + unfold norm2, csum, creal. simpl. f_equal.
      unfold Cplus, Cnorm2; simpl. apply C_eq; ring.
  - cbn [dense_of fst snd]. split.
    + destruct (qubit_of_unit u v) as [zx [zy [E _]]]. rewrite E.
      replace (2 ^ S (length l))%nat with (2 * 2 ^ length l)%nat
        by (simpl; lia).
      apply kron2_qubit_shape. exact IHs.
    + apply kron2_qubit_norm. exact IHn.
Qed.

Lemma advance_0 (g : rng) : advance 0 g = g.
Proof. destruct g as [dr c]. unfold advance; simpl. f_equal. lia. Qed.

Lemma gen_rand_pure_qubits_run (n : nat) (g : rng) :
  gen_rand_pure_qubits n None g =
  Ok (map (fun i => Dense (qubit_at g i)) (seq 0 n), advance (2 * n) g).
Proof.
  revert g. induction n as [| n IH]; intros g.
  - simpl. unfold ret. rewrite advance_0. reflexivity.
  - cbn [gen_rand_pure_qubits]. unfold bind at 1.
    unfold rand_pure_qubit, bind, rand, ret. cbn [qu].
    rewrite IH. cbn [seq map]. f_equal. f_equal.
    + f_equal.
      * unfold qubit_at, advance; cbn [cursor draws].
        replace (cursor g + 2 * 0)%nat with (cursor g) by lia.
        reflexivity.
      * rewrite <- seq_shift, map_map. apply map_ext; intros i.
        unfold qubit_at, advance; cbn [cursor draws].
        replace (cursor g + 1 + 1 + 2 * i)%nat with (cursor g + 2 * S i)%nat
          by lia.
        reflexivity.
    + unfold advance; simpl. f_equal. lia.
Qed.

(** The qubit state of the draws [u] and [v], entry by entry. *)
Lemma qubit_of_entries (u v : R) :
  qubit_of u v =
  [[Fin (mkC (cos (acos (2 * v - 1) / 2)) 0)];
   [Fin (mkC (sin (acos (2 * v - 1) / 2) * cos (2 * PI * u))
             (sin (acos (2 * v - 1) / 2) * sin (2 * PI * u)))]].
Proof.
  unfold qubit_of, exp_i, creal. cbn [cmul]. unfold Cmult. cbn [Re Im].
  set (t := sin (acos (2 * v - 1) / 2)).
  set (c := cos (2 * PI * u)). set (s := sin (2 * PI * u)).
  replace (mkC (t * c - 0 * s) (t * s + 0 * c)) with (mkC (t * c) (t * s))
    by (apply C_eq; ring).
  reflexivity.
Qed.

Lemma cmul_1_r (x : cnum) : cmul x (creal 1) = x.
Proof.
  destruct x as [[a b] |]; [| reflexivity].
  unfold cmul, creal, Cmult. cbn [Re Im]. f_equal. apply C_eq; ring.
Qed.

(** C7. For [n >= 0], [rand_product_state(n)] is the tensor product, from
    left to right, of [n] qubit states [[cos(theta/2), sin(theta/2)
    e^(i phi)]], [phi = 2 pi u], [theta = arccos(2 v - 1)]: the second
    amplitude has the real part [sin(theta/2) cos(phi)] and the imaginary
    part [sin(theta/2) sin(phi)]. Qubit [i] has its own two uniform draws
    of [[0, 1)], the draws [2 i] and [2 i + 1]. The result is a column of
    [2 ^ n] entries of unit norm; for [n = 0] it is the scalar 1, for
    [n = 1] the qubit itself, and for [n = 2] the four products of an
    amplitude of qubit 0 by an amplitude of qubit 1, those of the first
    amplitude of qubit 0 first. *)
Theorem rand_product_state_tensor (n : Z) (g : rng) :
  (0 <= n)%Z ->
  let u i := uniform (draws g (cursor g + 2 * i)%nat) in
  let v i := uniform (draws g (cursor g + 2 * i + 1)%nat) in
  let phi i := 2 * PI * u i in
  let theta i := acos (2 * v i - 1) in
  let a i := Fin (mkC (cos (theta i / 2)) 0) in
  let b i := Fin (mkC (sin (theta i / 2) * cos (phi i))
                      (sin (theta i / 2) * sin (phi i))) in
  let qubit i := Dense [[a i]; [b i]] in
  let qubits := map qubit (seq 0 (Z.to_nat n)) in
  rand_product_state n None g = Ok (kron qubits, advance (2 * Z.to_nat n) g) /\
  (forall i,
      0 <= u i < 1 /\ 0 <= v i < 1 /\
      qubit i = Dense (qubit_at g i) /\
      qubit_at g i = qubit_of (u i) (v i)) /\
  (exists c,
      kron qubits = Dense c /\
      length c = (2 ^ Z.to_nat n)%nat /\
      (forall row, In row c -> length row = 1%nat) /\
      norm2 c = creal 1) /\
  (n = 0%Z -> rand_product_state n None g = Ok (Dense [[creal 1]], g)) /\
  (n = 1%Z -> rand_product_state n None g = Ok (qubit 0%nat, advance 2 g)) /\
  (n = 2%Z ->
   rand_product_state n None g =
   Ok (Dense [[cmul (a 0%nat) (a 1%nat)]; [cmul (a 0%nat) (b 1%nat)];
              [cmul (b 0%nat) (a 1%nat)]; [cmul (b 0%nat) (b 1%nat)]],
       advance 4 g)).
Proof.
  intros Hn u v phi theta a b qubit qubits.
  assert (Hq : forall i, qubit i = Dense (qubit_at g i)).
  { intros i. unfold qubit_at. rewrite qubit_of_entries. reflexivity. }
  assert (Hqs : qubits = map (fun i => Dense (qubit_at g i))
                             (seq 0 (Z.to_nat n))).
  { unfold qubits. apply map_ext. exact Hq. }
  assert (Hrun : rand_product_state n None g =
                 Ok (kron qubits, advance (2 * Z.to_nat n) g)).
  { unfold rand_product_state, bind.
    rewrite gen_rand_pure_qubits_run, Hqs. reflexivity. }
  split; [exact Hrun |]. split; [| split; [| split; [| split]]].
  - intros i. split; [apply uniform_range |].
    split; [apply uniform_range |]. split; [apply Hq | reflexivity].
  - pose proof (kron_qubits_unit
                  (map (fun i => (uniform (draws g (cursor g + 2 * i)%nat),
                                  uniform (draws g (cursor g + 2 * i + 1)%nat)))
                       (seq 0 (Z.to_nat n)))) as [c [E [[Hl Hr] Hnorm]]].
    rewrite map_map in E. cbn [fst snd] in E.
    exists c. rewrite Hqs. split; [exact E |].
    rewrite length_map, length_seq in Hl.
    split; [exact Hl |]. split; [exact Hr | exact Hnorm].
  - intros ->. rewrite Hrun. unfold qubits. cbn [Z.to_nat seq map Nat.mul].
    rewrite advance_0. reflexivity.
  - intros ->. rewrite Hrun. unfold qubits.
    change (Z.to_nat 1) with 1%nat. cbn [seq map Nat.mul Nat.add].
    unfold kron, qubit. cbn [fold_right dense_of].
    rewrite kron2_qubit. cbn [map app]. rewrite !cmul_1_r. reflexivity.
  - intros ->. rewrite Hrun. unfold qubits.
    change (Z.to_nat 2) with 2%nat. cbn [seq map Nat.mul Nat.add].
    unfold kron, qubit. cbn [fold_right dense_of].
    rewrite !kron2_qubit. cbn [map app]. rewrite !cmul_1_r. reflexivity.
Qed.

(** The uniform draws of the first two qubits sampled from [rng_varied]:
    they all differ, and none is zero. *)
Lemma rng_varied_uniforms :
  uniform (draws rng_varied 0) = 1 / 2 /\
  uniform (draws rng_varied 1) = 1 / 3 /\
  uniform (draws rng_varied 2) = 1 / 4 /\
  uniform (draws rng_varied 3) = 1 / 5.
Proof.
  unfold rng_varied, unit_frac. cbn [draws uniform INR].
  repeat split; field.
Qed.

(** A run of C7: two qubits, of the uniform draws [1/2], [1/3] and [1/4],
    [1/5]. *)
Lemma rand_product_state_tensor_witness :
  (0 <= 2)%Z /\
  let n := 2%Z in
  let g := rng_varied in
  let u i := uniform (draws g (cursor g + 2 * i)%nat) in
  let v i := uniform (draws g (cursor g + 2 * i + 1)%nat) in
  let phi i := 2 * PI * u i in
  let theta i := acos (2 * v i - 1) in
  let a i := Fin (mkC (cos (theta i / 2)) 0) in
  let b i := Fin (mkC (sin (theta i / 2) * cos (phi i))
                      (sin (theta i / 2) * sin (phi i))) in
  let qubit i := Dense [[a i]; [b i]] in
  let qubits := map qubit (seq 0 (Z.to_nat n)) in
  rand_product_state n None g = Ok (kron qubits, advance (2 * Z.to_nat n) g) /\
  (forall i,
      0 <= u i < 1 /\ 0 <= v i < 1 /\
      qubit i = Dense (qubit_at g i) /\
      qubit_at g i = qubit_of (u i) (v i)) /\
  (exists c,
      kron qubits = Dense c /\
      length c = (2 ^ Z.to_nat n)%nat /\
      (forall row, In row c -> length row = 1%nat) /\
      norm2 c = creal 1) /\
  (n = 0%Z -> rand_product_state n None g = Ok (Dense [[creal 1]], g)) /\
  (n = 1%Z -> rand_product_state n None g = Ok (qubit 0%nat, advance 2 g)) /\
  (n = 2%Z ->
   rand_product_state n None g =
   Ok (Dense [[cmul (a 0%nat) (a 1%nat)]; [cmul (a 0%nat) (b 1%nat)];
              [cmul (b 0%nat) (a 1%nat)]; [cmul (b 0%nat) (b 1%nat)]],
       advance 4 g)).
Proof.
  split; [lia |].
  apply (rand_product_state_tensor 2 rng_varied).
  lia.
Defined.

(** ** The mixed state *)

Lemma map_seq_offset {A} (f : nat -> A) (s n : nat) :
  map f (seq s n) = map (fun k => f (s + k)%nat) (seq 0 n).
Proof.
  revert s. induction n as [| n IH]; intros s; [reflexivity |].
  cbn [seq map]. f_equal.
  - f_equal. lia.
  - rewrite IH, <- seq_shift, map_map. apply map_ext; intros k.
    f_equal. lia.
Qed.

(** A sum over the pairs [(i, k)] is the sum over the indices
    [i * b + k]. *)
Lemma csum_blocks (f : nat -> cnum) (a b : nat) :
  csum (map (fun i => csum (map (fun k => f (i * b + k)%nat) (seq 0 b)))
            (seq 0 a))
  = csum (map f (seq 0 (a * b))).
Proof.
  induction a as [| a IH]; [reflexivity |].
  rewrite seq_S, map_app, csum_app, IH.
  replace (S a * b)%nat with (a * b + b)%nat by lia.
  rewrite seq_app, map_app, csum_app. f_equal.
  cbn [map Nat.add]. unfold csum at 1. cbn [fold_right].
  rewrite cadd_0_r. rewrite (map_seq_offset f (a * b) b). reflexivity.
Qed.

Lemma map_nth_seq (v : list cnum) :
  map (fun n => nth n v NaN) (seq 0 (length v)) = v.
Proof.
  apply (nth_ext _ _ NaN NaN).
  - rewrite length_map, length_seq; reflexivity.
  - intros n Hn. rewrite length_map, length_seq in Hn.
    apply (map_seq_nth (fun k => nth k v NaN)); exact Hn.
Qed.

Lemma cmul_cconj (x : cnum) : cmul x (cconj x) = cabs2 x.
Proof.
  destruct x as [[a b] |]; [| reflexivity].
  simpl. unfold creal. f_equal. unfold Cmult, Cconj, Cnorm2; simpl.
  apply C_eq; ring.
Qed.

(** The partial trace keeps the trace: the marginal of a ket on its first
    part has the squared norm of the ket as trace. *)
Lemma ptr_trace (p : mat) (dA dB : Z) :
  (1 <= dA)%Z ->
  length (concat (dense_of p)) = (Z.to_nat dA * Z.to_nat dB)%nat ->
  exists rho,
    ptr p dA dB 0 = Dense rho /\
    square (Z.to_nat dA) rho /\
    trace rho = norm2 (dense_of p).
Proof.
  intros HdA Hlen. unfold ptr. cbn [Z.eqb].
  set (v := concat (dense_of p)) in *.
  set (a := Z.to_nat dA) in *. set (b := Z.to_nat dB) in *.
  eexists. split; [reflexivity |].
  assert (Ha : (0 < a)%nat) by (unfold a; lia).
  assert (Hsq : square a
    (map (fun i => map (fun j =>
        csum (map (fun k => cmul (nth (i * b + k) v NaN)
                                 (cconj (nth (j * b + k) v NaN)))
                  (seq 0 b))) (seq 0 a)) (seq 0 a))).
  { split.
    - rewrite length_map, length_seq; reflexivity.
    - intros row Hin. apply in_map_iff in Hin as [i [<- _]].
      rewrite length_map, length_seq; reflexivity. }
  split; [exact Hsq |].
  unfold trace, diagonal.
  rewrite (square_ncols a _ Hsq Ha).
  destruct Hsq as [Hl _]. rewrite Hl, Nat.min_id.
  rewrite (map_ext_in _
             (fun i => csum (map (fun k => cabs2 (nth (i * b + k) v NaN))
                                 (seq 0 b)))).
  - rewrite (csum_blocks (fun n => cabs2 (nth n v NaN)) a b).
    rewrite <- Hlen. rewrite <- (map_map (fun n => nth n v NaN) cabs2).
    rewrite map_nth_seq. reflexivity.
  - intros i Hi. apply in_seq in Hi.
    rewrite (map_seq_nth _ a i []) by lia.
    rewrite (map_seq_nth _ a i NaN) by lia.
    f_equal. apply map_ext; intros k. apply cmul_cconj.
Qed.

Lemma csum_creal (l : list R) : csum (map creal l) = creal (Rsum l).
Proof.
  unfold csum, Rsum. induction l as [| r l IH]; [reflexivity |].
  cbn [map fold_right]. rewrite IH. unfold creal; simpl. f_equal.
  unfold Cplus; simpl. apply C_eq; ring.
Qed.

Lemma Rsum_scale (l : list R) (c : R) :
  Rsum (map (fun r => r / c) l) = Rsum l / c.
Proof.
  unfold Rsum. induction l as [| r l IH]; cbn [map fold_right].
  - unfold Rdiv; ring.
  - rewrite IH. unfold Rdiv; ring.
Qed.

Lemma Rsum_nonneg (l : list R) :
  (forall r, In r l -> 0 <= r) -> 0 <= Rsum l.
Proof.
  unfold Rsum. induction l as [| r l IH]; intros H; cbn [fold_right].
  - lra.
  - pose proof (H r (or_introl eq_refl)).
    assert (0 <= fold_right Rplus 0 l) by (apply IH; intros; apply H; right; auto).
    lra.
Qed.

Lemma concat_singletons {A B} (f : A -> B) (l : list A) :
  concat (map (fun x => [f x]) l) = map f l.
Proof. induction l as [| x l IH]; simpl; [| rewrite IH]; reflexivity. Qed.

(** The squared norm of a column of numbers. *)
Lemma norm2_column (zs : list C) :
  norm2 (map (fun z => [Fin z]) zs) = creal (Rsum (map Cnorm2 zs)).
Proof.
  unfold norm2. rewrite concat_singletons, map_map.
  rewrite <- (map_map Cnorm2 creal). apply csum_creal.
Qed.

(** Normalising a column of numbers that is not the zero vector gives
    a column of unit norm. *)
Lemma nmlz_column_unit (zs : list C) :
  norm2 (map (fun z => [Fin z]) zs) <> creal 0 ->
  length (concat (dense_of (nmlz (Dense (map (fun z => [Fin z]) zs)))))
    = length zs /\
  norm2 (dense_of (nmlz (Dense (map (fun z => [Fin z]) zs)))) = creal 1.
Proof.
  rewrite norm2_column. intros Hne.
  set (S0 := Rsum (map Cnorm2 zs)) in *.
  assert (HS : 0 < S0).
  { assert (0 <= S0).
    { apply Rsum_nonneg. intros r Hin. apply in_map_iff in Hin as [z [<- _]].
      unfold Cnorm2. nra. }
    destruct (Req_dec_T S0 0) as [E | E]; [| lra].
    exfalso; apply Hne; rewrite E; reflexivity. }
  assert (Hs : sqrt S0 <> 0) by (pose proof (sqrt_lt_R0 S0 HS); lra).
  assert (Hcol : ncols (map (fun z => [Fin z]) zs) = 1%nat).
  { destruct zs as [| z zs]; [| reflexivity].
    exfalso. unfold S0, Rsum in HS; simpl in HS. lra. }
  unfold nmlz. cbn [dense_of]. rewrite Hcol. cbn [Nat.eqb].
  rewrite norm2_column. fold S0. cbn [csqrt creal Re mat_div dense_of].
  fold (creal (sqrt S0)).
  rewrite map_map. cbn [map].
  rewrite (map_ext _ (fun z => [Fin (mkC (Re z / sqrt S0) (Im z / sqrt S0))]))
    by (intros z; rewrite cdiv_real by exact Hs; reflexivity).
  split.
  - rewrite concat_singletons, length_map. reflexivity.
  - rewrite <- (map_map (fun z => mkC (Re z / sqrt S0) (Im z / sqrt S0))
                        (fun z => [Fin z])).
    rewrite norm2_column, map_map.
    rewrite (map_ext _ (fun z => Cnorm2 z / S0)).
    + rewrite <- (map_map Cnorm2 (fun r => r / S0)), Rsum_scale.
      fold S0. f_equal. field. lra.
    + intros z. unfold Cnorm2; simpl.
      replace ((Re z * Re z + Im z * Im z) / S0)
        with ((Re z * Re z + Im z * Im z) / (sqrt S0 * sqrt S0))
        by (rewrite sqrt_sqrt by lra; reflexivity).
      field. exact Hs.
Qed.

Section MixedState.

Variable sp_random : Z -> Z -> string -> R -> M (list (nat * nat)).

Lemma rand_ket_dense_run (n : Z) (format : string) (density : R) (g : rng) :
  (0 <= n)%Z ->
  rand_ket sp_random n false format density g =
  Ok (nmlz (Dense (raw_ket (Z.to_nat n) g)),
      advance (Z.to_nat n * 1) (advance (Z.to_nat n * 1) g)).
Proof.
  intros Hn. unfold rand_ket, bind, ret.
  rewrite (randn2_ok n 1 g Hn ltac:(lia)).
  rewrite (randn2_ok n 1 _ Hn ltac:(lia)).
  change (Z.to_nat 1) with 1%nat.
  do 3 f_equal.
  rewrite zip_with_map_seq. unfold raw_ket. f_equal.
  apply map_ext; intros i. cbn [seq map zip_with combine fst snd].
  unfold complex_of, advance; cbn [cursor draws].
  replace (cursor g + i * 1 + 0)%nat with (cursor g + i)%nat by lia.
  replace (cursor g + Z.to_nat n * 1 + i * 1 + 0)%nat
    with (cursor g + Z.to_nat n + i)%nat by lia.
  reflexivity.
Qed.

Lemma raw_ket_column (n : nat) (g : rng) :
  raw_ket n g =
  map (fun z => [Fin z])
      (map (fun i => mkC (normal (draws g (cursor g + i)%nat))
                         (normal (draws g (cursor g + n + i)%nat)))
           (seq 0 n)).
Proof. unfold raw_ket. rewrite map_map. reflexivity. Qed.

Lemma randint_range (low high : Z) (g : rng) :
  (low < high)%Z ->
  let m := (low + Z.of_nat (pick (draws g (cursor g))) mod (high - low))%Z in
  randint low high g = Ok (m, advance 1 g) /\ (low <= m < high)%Z.
Proof.
  intros H m. unfold randint.
  replace (low <? high)%Z with true by (symmetry; apply Z.ltb_lt; lia).
  split; [reflexivity |].
  pose proof (Z.mod_pos_bound (Z.of_nat (pick (draws g (cursor g))))
                (high - low) ltac:(lia)).
  unfold m. lia.
Qed.

(** C4, as the code has it. For [d >= 2], [rand_mix] draws the auxiliary
    dimension [m] in the inclusive range [[2, d]], every value of which
    some generator state gives; it samples a ket of dimension [d * m] with
    the ket builder, and returns its partial trace with the partition
    [(d, m)], the part of index 0 kept: a [d] by [d] matrix, whose trace is
    exactly 1 whatever [m] is, as soon as the sampled ket is not the zero
    vector. *)
Theorem rand_mix_partial_trace (d : Z) (g : rng) :
  (2 <= d)%Z ->
  let m := (2 + Z.of_nat (pick (draws g (cursor g))) mod (d - 1))%Z in
  let n := Z.to_nat (d * m) in
  let g1 := advance 1 g in
  let g2 := advance (n * 1) (advance (n * 1) g1) in
  let psi := nmlz (Dense (raw_ket n g1)) in
  (2 <= m <= d)%Z /\
  randint 2 (d + 1) g = Ok (m, g1) /\
  rand_ket sp_random (d * m) false "csr"%string (1 / 100) g1 = Ok (psi, g2) /\
  rand_mix sp_random d g = Ok (ptr psi d m 0, g2) /\
  (norm2 (raw_ket n g1) <> creal 0 ->
   exists rho,
     ptr psi d m 0 = Dense rho /\
     square (Z.to_nat d) rho /\
     trace rho = creal 1) /\
  (forall m0, (2 <= m0 <= d)%Z ->
     exists g0, randint 2 (d + 1) g0 = Ok (m0, advance 1 g0)).
Proof.
  intros Hd m n g1 g2 psi.
  destruct (randint_range 2 (d + 1) g ltac:(lia)) as [Hint Hm].
  replace (d + 1 - 2)%Z with (d - 1)%Z in * by lia.
  fold m in Hint, Hm. fold g1 in Hint.
  assert (Hket : rand_ket sp_random (d * m) false "csr"%string (1 / 100) g1
                 = Ok (psi, g2)).
  { apply rand_ket_dense_run. nia. }
  split; [lia |]. split; [exact Hint |]. split; [exact Hket |].
  split; [| split].
  - unfold rand_mix, bind. rewrite Hint. fold m. rewrite Hket. reflexivity.
  - intros Hne. unfold psi.
    rewrite raw_ket_column in Hne |- *.
    destruct (nmlz_column_unit _ Hne) as [Hlen Hunit].
    rewrite length_map, length_seq in Hlen.
    destruct (ptr_trace
                (nmlz (Dense (map (fun z => [Fin z])
                   (map (fun i => mkC (normal (draws g1 (cursor g1 + i)%nat))
                                      (normal (draws g1 (cursor g1 + n + i)%nat)))
                        (seq 0 n)))))
                d m ltac:(lia))
      as [rho [E [Hsq Htr]]].
    + rewrite Hlen. unfold n. rewrite Z2Nat.inj_mul by lia. reflexivity.
    + exists rho. split; [exact E |]. split; [exact Hsq |].
      rewrite Htr. exact Hunit.
  - intros m0 Hm0.
    exists (rng_const 0 (Z.to_nat (m0 - 2))).
    destruct (randint_range 2 (d + 1)
                (rng_const 0 (Z.to_nat (m0 - 2))) ltac:(lia)) as [E _].
    rewrite E. do 2 f_equal.
    cbn [rng_const draws cursor const_draw pick].
    rewrite Z2Nat.id by lia.
    rewrite Z.mod_small by lia. lia.
Qed.

End MixedState.

(** C4 fails on the code at [d = 1]: the range of the auxiliary dimension
    is empty, and [rand_mix(1)] raises a [ValueError]. *)
Lemma rand_mix_order_1_counterexample :
  (1 <= 1)%Z /\ rand_mix sp_empty 1 (rng_const 1 0) = Raise ValueError.
Proof. split; [lia | reflexivity]. Qed.

(** A run of C4 at order 2, every normal draw equal to 1. *)
Lemma rand_mix_partial_trace_witness :
  (2 <= 2)%Z /\
  exists rho g',
    rand_mix sp_empty 2 (rng_const 1 0) = Ok (Dense rho, g') /\
    square 2 rho /\
    trace rho = creal 1.
Proof.
  split; [lia |].
  pose proof (rand_mix_partial_trace sp_empty 2 (rng_const 1 0) ltac:(lia))
    as P.
  cbv zeta in P. destruct P as [_ [_ [_ [Hrun [Htr _]]]]].
  destruct Htr as [rho [E [Hsq Ht]]].
  - change (Z.to_nat
              (2 * (2 + Z.of_nat (pick (draws (rng_const 1 0)
                                           (cursor (rng_const 1 0))))
                        mod (2 - 1))))
      with 4%nat.
    rewrite raw_ket_column, norm2_column. intros H.
    apply (f_equal (fun x => match x with Fin z => Re z | NaN => 0 end)) in H.
    cbv [creal Re Rsum Cnorm2 Im map seq fold_right advance rng_const draws
         cursor const_draw normal] in H.
    lra.
  - exists rho. eexists. split; [| split; [exact Hsq | exact Ht]].
    rewrite Hrun, E. reflexivity.
Defined.

(** * Further properties *)

(** ** One random qubit *)

(** The polar angle is sampled through its cosine: with [v] the second
    uniform draw, the squared modulus of the first amplitude of the qubit
    is exactly [v] and that of the second is [1 - v]; the first amplitude is
    real and not negative, and the phase of the second is [2 pi u]. *)
Theorem rand_pure_qubit_law (g : rng) :
  let u := uniform (draws g (cursor g)) in
  let v := uniform (draws g (cursor g + 1)%nat) in
  exists c s,
    rand_pure_qubit None g =
      Ok (Dense [[creal c];
                 [Fin (mkC (s * cos (2 * PI * u)) (s * sin (2 * PI * u)))]],
          advance 1 (advance 1 g)) /\
    0 <= c /\ 0 <= s /\ c * c = v /\ s * s = 1 - v.
Proof.
  intros u v.
  assert (Hv : 0 <= v < 1) by apply uniform_range.
  set (t := acos (2 * v - 1) / 2).
  pose proof (acos_bound (2 * v - 1)) as Hb.
  pose proof PI_RGT_0 as Hpi.
  assert (Hcos : cos (2 * t) = 2 * v - 1).
  { unfold t. replace (2 * (acos (2 * v - 1) / 2)) with (acos (2 * v - 1))
      by field. apply cos_acos. lra. }
  rewrite cos_2a_cos in Hcos.
  pose proof (sin2_cos2 t) as Hsc. unfold Rsqr in Hsc.
  exists (cos t), (sin t). split; [| split; [| split; [| split]]].
  - unfold rand_pure_qubit, bind, rand, ret. cbn [qu].
    unfold qubit_of, exp_i, creal. cbn [cmul advance cursor draws].
    fold u. fold v. fold t.
    replace (Cmult (mkC (sin t) 0) (mkC (cos (2 * PI * u)) (sin (2 * PI * u))))
      with (mkC (sin t * cos (2 * PI * u)) (sin t * sin (2 * PI * u)))
      by (unfold Cmult; cbn [Re Im]; apply C_eq; ring).
    reflexivity.
  - apply cos_ge_0; unfold t; lra.
  - apply sin_ge_0; unfold t; lra.
  - lra.
  - lra.
Qed.

(** ** The ket builder *)

Lemma nmlz_one_column (a : list (list cnum)) :
  ncols a = 1%nat ->
  nmlz (Dense a) = Dense (map (map (fun v => cdiv v (csqrt (norm2 a)))) a).
Proof. intros H. unfold nmlz. cbn [dense_of]. rewrite H. reflexivity. Qed.

Lemma raw_ket_shape (n : nat) (g : rng) : column_shape n (raw_ket n g).
Proof.
  unfold raw_ket. split.
  - rewrite length_map, length_seq; reflexivity.
  - intros row Hin. apply in_map_iff in Hin as [i [<- _]]. reflexivity.
Qed.

Lemma column_shape_ncols (n : nat) (a : list (list cnum)) :
  column_shape n a -> (0 < n)%nat -> ncols a = 1%nat.
Proof.
  intros [Hl Hr] Hn. destruct a as [| r a]; simpl in *; [lia |].
  apply Hr; left; reflexivity.
Qed.

Lemma column_shape_map (n : nat) (a : list (list cnum)) (f : cnum -> cnum) :
  column_shape n a -> column_shape n (map (map f) a).
Proof.
  intros [Hl Hr]. split.
  - rewrite length_map; exact Hl.
  - intros row Hin. apply in_map_iff in Hin as [r0 [<- Hin]].
    rewrite length_map. apply Hr; exact Hin.
Qed.

Lemma Rsum_all_zero {A} (f : A -> R) (l : list A) :
  (forall x, f x = 0) -> Rsum (map f l) = 0.
Proof.
  intros H. unfold Rsum. induction l as [| x l IH]; cbn [map fold_right].
  - reflexivity.
  - rewrite IH, H. ring.
Qed.

Section KetBuilder.

Variable sp_random : Z -> Z -> string -> R -> M (list (nat * nat)).

(** In dense mode, for [d >= 1], [rand_ket] takes [d] normal draws twice and
    returns a column of [d] entries; when the sample is not the zero vector
    its squared norm is exactly 1. Neither [format] nor [density] is
    read. *)
Theorem rand_ket_unit_norm (d : Z) (format : string) (density : R) (g : rng) :
  (1 <= d)%Z ->
  norm2 (raw_ket (Z.to_nat d) g) <> creal 0 ->
  exists a,
    rand_ket sp_random d false format density g =
      Ok (Dense a, advance (Z.to_nat d * 1) (advance (Z.to_nat d * 1) g)) /\
    column_shape (Z.to_nat d) a /\
    norm2 a = creal 1 /\
    (forall format' density',
        rand_ket sp_random d false format' density' g =
        rand_ket sp_random d false format density g).
Proof.
  intros Hd Hne.
  assert (Hcol : ncols (raw_ket (Z.to_nat d) g) = 1%nat).
  { apply (column_shape_ncols (Z.to_nat d)); [apply raw_ket_shape | lia]. }
  eexists. split; [| split; [| split]].
  - rewrite rand_ket_dense_run by lia.
    rewrite (nmlz_one_column _ Hcol). reflexivity.
  - apply column_shape_map. apply raw_ket_shape.
  - rewrite raw_ket_column in Hne.
    destruct (nmlz_column_unit _ Hne) as [_ Hunit].
    rewrite <- raw_ket_column in Hunit.
    rewrite (nmlz_one_column _ Hcol) in Hunit. exact Hunit.
  - intros format' density'. rewrite !rand_ket_dense_run by lia. reflexivity.
Qed.

(** No guard on the zero vector: when every normal draw it takes is 0,
    [rand_ket] raises nothing and returns a column whose entries are all
    [0/0], not a number. *)
Theorem rand_ket_zero_sample (d : Z) (format : string) (density : R)
  (g : rng) :
  (1 <= d)%Z ->
  (forall i, (i < 2 * Z.to_nat d)%nat -> normal (draws g (cursor g + i)%nat) = 0) ->
  rand_ket sp_random d false format density g =
  Ok (Dense (map (fun _ => [NaN]) (seq 0 (Z.to_nat d))),
      advance (Z.to_nat d * 1) (advance (Z.to_nat d * 1) g)).
Proof.
  intros Hd Hz.
  assert (Hraw : raw_ket (Z.to_nat d) g
                 = map (fun _ => [creal 0]) (seq 0 (Z.to_nat d))).
  { unfold raw_ket. apply map_ext_in. intros i Hi. apply in_seq in Hi.
    rewrite (Hz i) by lia.
    replace (cursor g + Z.to_nat d + i)%nat
      with (cursor g + (Z.to_nat d + i))%nat by lia.
    rewrite (Hz (Z.to_nat d + i)%nat) by lia. reflexivity. }
  assert (Hcol : ncols (raw_ket (Z.to_nat d) g) = 1%nat).
  { apply (column_shape_ncols (Z.to_nat d)); [apply raw_ket_shape | lia]. }
  rewrite rand_ket_dense_run by lia.
  rewrite (nmlz_one_column _ Hcol), Hraw.
  assert (Hn : csqrt (norm2 (map (fun _ : nat => [creal 0])
                                 (seq 0 (Z.to_nat d)))) = creal 0).
  { rewrite <- (map_map (fun _ : nat => mkC 0 0) (fun z => [Fin z])).
    rewrite norm2_column, map_map.
    rewrite Rsum_all_zero by (intros x; unfold Cnorm2; simpl; ring).
    cbn [csqrt creal Re]. rewrite sqrt_0. reflexivity. }
  rewrite Hn, map_map. do 3 f_equal.
  apply map_ext; intros i. cbn [map]. rewrite cdiv_zero. reflexivity.
Qed.

End KetBuilder.

(** A run of the ket builder at order 2, every normal draw equal to 1. *)
Lemma rand_ket_unit_norm_witness :
  (1 <= 2)%Z /\
  exists a g',
    rand_ket sp_empty 2 false "csr"%string (1 / 100) (rng_const 1 0)
    = Ok (Dense a, g') /\
    column_shape 2 a /\ norm2 a = creal 1.
Proof.
  split; [lia |].
  destruct (rand_ket_unit_norm sp_empty 2 "csr"%string (1 / 100)
              (rng_const 1 0) ltac:(lia)) as [a [E [Hs [Hn _]]]].
  - change (Z.to_nat 2) with 2%nat.
    rewrite raw_ket_column, norm2_column. intros H.
    apply (f_equal (fun x => match x with Fin z => Re z | NaN => 0 end)) in H.
    cbv [creal Re Rsum Cnorm2 Im map seq fold_right rng_const draws
         cursor const_draw normal] in H.
    lra.
  - exists a. eexists. split; [exact E |]. split; [exact Hs | exact Hn].
Defined.

(** A run of the ket builder on the zero sample, at order 2. *)
Lemma rand_ket_zero_sample_witness :
  (1 <= 2)%Z /\
  rand_ket sp_empty 2 false "csr"%string (1 / 100) (rng_const 0 0) =
  Ok (Dense [[NaN]; [NaN]], advance 2 (advance 2 (rng_const 0 0))).
Proof.
  split; [lia |].
  apply (rand_ket_zero_sample sp_empty 2 "csr"%string (1 / 100)
           (rng_const 0 0)).
  - lia.
  - intros i _. reflexivity.
Defined.

(** ** The product state, one qubit more *)

Lemma qubit_at_shift (g : rng) (i : nat) :
  qubit_at (advance 2 g) i = qubit_at g (S i).
Proof.
  unfold qubit_at, advance; cbn [cursor draws].
  replace (cursor g + 2 + 2 * i)%nat with (cursor g + 2 * S i)%nat by lia.
  reflexivity.
Qed.

(** The product state of [n + 1] qubits is the Kronecker product of the
    first qubit sampled with the product state of [n] qubits sampled from
    the generator state that the first qubit leaves: the first qubit is the
    leftmost factor, and one qubit more costs two uniform draws more. *)
Theorem rand_product_state_succ (n : Z) (g : rng) :
  (0 <= n)%Z ->
  exists a g',
    rand_product_state n None (advance 2 g) = Ok (Dense a, g') /\
    rand_product_state (n + 1) None g = Ok (Dense (kron2 (qubit_at g 0) a), g') /\
    g' = advance (2 * Z.to_nat n) (advance 2 g).
Proof.
  intros Hn. unfold rand_product_state, bind, ret.
  rewrite !gen_rand_pure_qubits_run.
  replace (Z.to_nat (n + 1)) with (S (Z.to_nat n)) by lia.
  eexists. eexists. split; [reflexivity |]. split; [| reflexivity].
  do 2 f_equal.
  - unfold kron. cbn [seq map fold_right dense_of].
    rewrite <- seq_shift, map_map.
    rewrite (map_ext _ (fun i => Dense (qubit_at (advance 2 g) i)))
      by (intros i; rewrite qubit_at_shift; reflexivity).
    reflexivity.
  - unfold advance; cbn [cursor draws]. f_equal. lia.
Qed.

Lemma rand_product_state_succ_witness :
  (0 <= 1)%Z /\
  exists a g',
    rand_product_state 1 None (advance 2 (rng_const 1 0)) = Ok (Dense a, g') /\
    rand_product_state (1 + 1) None (rng_const 1 0)
    = Ok (Dense (kron2 (qubit_at (rng_const 1 0) 0) a), g').
Proof.
  split; [lia |].
  destruct (rand_product_state_succ 1 (rng_const 1 0) ltac:(lia))
    as [a [g' [E1 [E2 _]]]].
  exists a, g'. split; [exact E1 | exact E2].
Defined.

(** ** The stream of Haar states: its first value, its end, its edges *)

Lemma gen_take_at_end (sp_random : Z -> Z -> string -> R -> M (list (nat * nat)))
  (qr : list (list cnum) -> list (list cnum) * list (list cnum))
  (d count : Z) (n : nat) (s : haar_gen) (g : rng) :
  (count <= gen_rep s)%Z ->
  gen_take sp_random qr d count n s g = Ok (([], s), g).
Proof.
  intros H. destruct n as [| n]; [reflexivity |].
  cbn [gen_take]. unfold bind, gen_next.
  replace (gen_rep s <? count)%Z with false by (symmetry; apply Z.ltb_ge; lia).
  reflexivity.
Qed.

Section HaarStreamEdges.

Variable sp_random : Z -> Z -> string -> R -> M (list (nat * nat)).
Variable qr : list (list cnum) -> list (list cnum) * list (list cnum).

Hypothesis qr_square :
  forall n a, square n a -> square n (fst (qr a)) /\ square n (snd (qr a)).

(** [rand_haar_state(d)] is the first value of the stream: from one
    generator state, both sample the same unitary, return its column 0 and
    leave the same generator state. *)
Theorem rand_haar_state_first_emission (d count : Z) (g : rng) :
  (1 <= d)%Z -> (1 <= count)%Z ->
  exists v g',
    rand_haar_state sp_random qr d g = Ok (v, g') /\
    gen_next sp_random qr d count gen_rand_haar_states g =
      Ok ((Some v, mkGen 1 (Some (haar_of qr d g))), g') /\
    rand_uni sp_random qr d g = Ok (haar_of qr d g, g') /\
    v = column_of (haar_of qr d g) 0.
Proof.
  intros Hd Hc.
  assert (Hcol : forall g0,
             column (haar_of qr d g) 0 g0
             = Ok (column_of (haar_of qr d g) 0, g0)).
  { intros g0. apply (column_in_range (haar_of qr d g) 0 g0).
    rewrite (haar_of_ncols qr qr_square) by lia. lia. }
  exists (column_of (haar_of qr d g) 0).
  exists (advance (Z.to_nat d * Z.to_nat d)
                  (advance (Z.to_nat d * Z.to_nat d) g)).
  split; [| split; [| split]].
  - unfold rand_haar_state, bind. rewrite rand_uni_run by lia.
    fold (haar_of qr d g). apply Hcol.
  - unfold gen_next, gen_rand_haar_states. cbn [gen_rep gen_u].
    replace (0 <? count)%Z with true by (symmetry; apply Z.ltb_lt; lia).
    unfold py_mod.
    replace (d =? 0)%Z with false by (symmetry; apply Z.eqb_neq; lia).
    unfold bind at 1. unfold ret at 1. rewrite Z.mod_0_l by lia.
    cbn [Z.eqb]. unfold bind at 1. unfold bind at 1.
    rewrite rand_uni_run by lia. fold (haar_of qr d g).
    unfold ret at 1. unfold bind at 1. rewrite Hcol. reflexivity.
  - rewrite rand_uni_run by lia. reflexivity.
  - reflexivity.
Qed.

Lemma gen_take_one_more (d count : Z) (g : rng) (n k : nat) :
  (1 <= d)%Z -> (Z.of_nat k < count)%Z ->
  gen_take sp_random qr d count (S n)
           (mkGen (Z.of_nat k) (cached qr d g k))
           (after_samples d (sampled d k) g) =
  match gen_take sp_random qr d count n
                 (mkGen (Z.of_nat (S k)) (cached qr d g (S k)))
                 (after_samples d (sampled d (S k)) g) with
  | Ok ((vs, s''), g') =>
      Ok ((column_of (unitary_at qr d g k) (Z.to_nat (Z.of_nat k mod d)) :: vs,
           s''), g')
  | Raise e => Raise e
  end.
Proof.
  intros Hd Hk. cbn [gen_take]. unfold bind at 1.
  rewrite (gen_next_step sp_random qr qr_square) by lia.
  unfold bind.
  destruct (gen_take sp_random qr d count n
              (mkGen (Z.of_nat (S k)) (cached qr d g (S k)))
              (after_samples d (sampled d (S k)) g))
    as [[[vs s''] g'] | e]; reflexivity.
Qed.

Lemma gen_take_past_end (d count : Z) (g : rng) (extra n : nat) :
  (1 <= d)%Z ->
  forall k, Z.of_nat (k + n) = count ->
  gen_take sp_random qr d count (n + extra)
           (mkGen (Z.of_nat k) (cached qr d g k))
           (after_samples d (sampled d k) g) =
  gen_take sp_random qr d count n
           (mkGen (Z.of_nat k) (cached qr d g k))
           (after_samples d (sampled d k) g).
Proof.
  intros Hd. induction n as [| n IH]; intros k Hk.
  - cbn [Nat.add]. rewrite gen_take_at_end by (cbn [gen_rep]; lia).
    reflexivity.
  - cbn [Nat.add]. rewrite !gen_take_one_more by lia.
    rewrite (IH (S k)) by lia. reflexivity.
Qed.

(** The stream is finite: for [d >= 1], asking for more than [count]
    values gives the [count] values and no more; from there on [next]
    answers that the stream is over and draws nothing. *)
Theorem haar_state_stream_finite (d count : Z) (g : rng) (n : nat) :
  (1 <= d)%Z -> (0 <= count)%Z -> (Z.to_nat count <= n)%nat ->
  exists vs s' g',
    gen_take sp_random qr d count n gen_rand_haar_states g = Ok ((vs, s'), g') /\
    gen_take sp_random qr d count (Z.to_nat count) gen_rand_haar_states g
      = Ok ((vs, s'), g') /\
    length vs = Z.to_nat count /\
    gen_rep s' = count /\
    (forall g'', gen_next sp_random qr d count s' g'' = Ok ((None, s'), g'')).
Proof.
  intros Hd Hc Hn.
  assert (E0 : after_samples d (sampled d 0) g = g).
  { unfold sampled. cbn [Z.of_nat].
    rewrite <- (Z.div_unique (0 + d - 1) d 0 (d - 1)) by lia.
    destruct g as [dr c]. unfold after_samples; simpl. f_equal. lia. }
  pose proof (gen_take_from sp_random qr qr_square d count g
                (Z.to_nat count) Hd 0%nat ltac:(lia)) as Hrun.
  pose proof (gen_take_past_end d count g (n - Z.to_nat count)
                (Z.to_nat count) Hd 0%nat ltac:(lia)) as Hpast.
  replace (Z.to_nat count + (n - Z.to_nat count))%nat with n in Hpast by lia.
  cbn [Z.of_nat cached Nat.add] in Hrun, Hpast. rewrite E0 in Hrun, Hpast.
  fold gen_rand_haar_states in Hrun, Hpast.
  eexists. eexists. eexists.
  split; [rewrite Hpast; exact Hrun |]. split; [exact Hrun |].
  split; [rewrite length_map, length_seq; reflexivity |].
  split; [cbn [gen_rep]; lia |].
  intros g''. unfold gen_next. cbn [gen_rep].
  replace (Z.of_nat (Z.to_nat count) <? count)%Z with false
    by (symmetry; apply Z.ltb_ge; lia).
  reflexivity.
Qed.

End HaarStreamEdges.

(** At an order that is not positive the first [next] fails and nothing is
    emitted: order 0 on [rep % d] with a [ZeroDivisionError], a negative
    order in the sampler of the unitary with a [ValueError]. *)
Theorem haar_state_stream_bad_order
  (sp_random : Z -> Z -> string -> R -> M (list (nat * nat)))
  (qr : list (list cnum) -> list (list cnum) * list (list cnum))
  (d count : Z) (g : rng) (n : nat) :
  (d <= 0)%Z -> (1 <= count)%Z ->
  gen_take sp_random qr d count (S n) gen_rand_haar_states g =
  Raise (if (d =? 0)%Z then ZeroDivisionError else ValueError).
Proof.
  intros Hd Hc. cbn [gen_take]. unfold bind at 1.
  unfold gen_next, gen_rand_haar_states. cbn [gen_rep gen_u].
  replace (0 <? count)%Z with true by (symmetry; apply Z.ltb_lt; lia).
  unfold py_mod. destruct (d =? 0)%Z eqn:E; [reflexivity |].
  apply Z.eqb_neq in E.
  unfold bind at 1. unfold ret at 1. rewrite Z.mod_0_l by lia.
  cbn [Z.eqb]. unfold bind at 1. unfold bind at 1.
  unfold rand_uni. unfold bind at 1. unfold rand_matrix.
  unfold bind at 1. unfold bind at 1.
  rewrite randn2_negative by lia. reflexivity.
Qed.

(** With a count that is not positive the stream is empty, whatever the
    order is, zero and negative orders included: nothing is drawn and
    nothing fails. *)
Theorem haar_state_stream_empty
  (sp_random : Z -> Z -> string -> R -> M (list (nat * nat)))
  (qr : list (list cnum) -> list (list cnum) * list (list cnum))
  (d count : Z) (g : rng) (n : nat) :
  (count <= 0)%Z ->
  gen_take sp_random qr d count n gen_rand_haar_states g =
  Ok (([], gen_rand_haar_states), g).
Proof.
  intros Hc. apply gen_take_at_end. unfold gen_rand_haar_states.
  cbn [gen_rep]. lia.
Qed.

Lemma rand_haar_state_first_emission_witness :
  (1 <= 2)%Z /\ (1 <= 3)%Z /\
  exists v g',
    rand_haar_state sp_empty qr_trivial 2 (rng_const 1 0) = Ok (v, g') /\
    gen_next sp_empty qr_trivial 2 3 gen_rand_haar_states (rng_const 1 0) =
      Ok ((Some v, mkGen 1 (Some (haar_of qr_trivial 2 (rng_const 1 0)))), g').
Proof.
  split; [lia |]. split; [lia |].
  destruct (rand_haar_state_first_emission sp_empty qr_trivial
              qr_trivial_square 2 3 (rng_const 1 0) ltac:(lia) ltac:(lia))
    as [v [g' [E1 [E2 _]]]].
  exists v, g'. split; [exact E1 | exact E2].
Defined.

Lemma haar_state_stream_finite_witness :
  (1 <= 2)%Z /\ (0 <= 3)%Z /\ (Z.to_nat 3 <= 5)%nat /\
  exists vs s' g',
    gen_take sp_empty qr_trivial 2 3 5 gen_rand_haar_states (rng_const 1 0)
    = Ok ((vs, s'), g') /\
    length vs = Z.to_nat 3 /\ gen_rep s' = 3%Z.
Proof.
  split; [lia |]. split; [lia |]. split; [lia |].
  destruct (haar_state_stream_finite sp_empty qr_trivial qr_trivial_square
              2 3 (rng_const 1 0) 5 ltac:(lia) ltac:(lia) ltac:(lia))
    as [vs [s' [g' [E [_ [Hl [Hr _]]]]]]].
  exists vs, s', g'. split; [exact E |]. split; [exact Hl | exact Hr].
Defined.

Lemma haar_state_stream_bad_order_witness :
  (0 <= 0)%Z /\ (1 <= 3)%Z /\
  gen_take sp_empty qr_trivial 0 3 (S 2) gen_rand_haar_states (rng_const 1 0)
  = Raise (if (0 =? 0)%Z then ZeroDivisionError else ValueError).
Proof.
  split; [lia |]. split; [lia |].
  apply (haar_state_stream_bad_order sp_empty qr_trivial 0 3 (rng_const 1 0) 2);
    lia.
Defined.

Lemma haar_state_stream_empty_witness :
  (0 <= 0)%Z /\
  gen_take sp_empty qr_trivial 0 0 4 gen_rand_haar_states (rng_const 1 0)
  = Ok (([], gen_rand_haar_states), rng_const 1 0).
Proof.
  split; [lia |].
  apply (haar_state_stream_empty sp_empty qr_trivial 0 0 (rng_const 1 0) 4).
  lia.
Defined.

(** ** Products with the conjugate transpose *)

Lemma cmul_comm (x y : cnum) : cmul x y = cmul y x.
Proof.
  destruct x as [a |], y as [b |]; simpl; auto.
  f_equal; unfold Cmult; apply C_eq; ring.
Qed.

Lemma cconj_cmul (x y : cnum) : cconj (cmul x y) = cmul (cconj x) (cconj y).
Proof.
  destruct x as [a |], y as [b |]; simpl; auto.
  f_equal; unfold Cconj, Cmult; simpl; apply C_eq; ring.
Qed.

Lemma cconj_csum (l : list cnum) : cconj (csum l) = csum (map cconj l).
Proof.
  unfold csum. induction l as [| x l IH]; cbn [map fold_right].
  - apply cconj_0.
  - rewrite cconj_cadd, IH. reflexivity.
Qed.

Lemma zip_with_map_r {A B D E} (f : A -> D -> E) (h : B -> D)
  (l : list A) (l' : list B) :
  zip_with f l (map h l') = zip_with (fun x y => f x (h y)) l l'.
Proof.
  unfold zip_with. revert l'.
  induction l as [| a l IH]; intros [| b l']; simpl; try reflexivity.
  f_equal. apply IH.
Qed.

Lemma zip_with_same {A D} (f : A -> A -> D) (l : list A) :
  zip_with f l l = map (fun x => f x x) l.
Proof.
  unfold zip_with. induction l as [| a l IH]; simpl; [reflexivity |].
  f_equal. exact IH.
Qed.

Lemma zip_with_flip {A B D} (f : A -> B -> D) (l : list A) (l' : list B) :
  zip_with f l l' = zip_with (fun y x => f x y) l' l.
Proof.
  unfold zip_with. revert l'.
  induction l as [| a l IH]; intros [| b l']; simpl; try reflexivity.
  f_equal. apply IH.
Qed.

Lemma zip_with_ext {A B D} (f h : A -> B -> D) (l : list A) (l' : list B) :
  (forall x y, f x y = h x y) -> zip_with f l l' = zip_with h l l'.
Proof.
  intros H. unfold zip_with. apply map_ext. intros [x y]. apply H.
Qed.

Lemma map_zip_with {A B D E} (h : D -> E) (f : A -> B -> D)
  (l : list A) (l' : list B) :
  map h (zip_with f l l') = zip_with (fun x y => h (f x y)) l l'.
Proof. unfold zip_with. rewrite map_map. reflexivity. Qed.

Lemma row_nth_seq (n : nat) (row : list cnum) :
  length row = n -> map (fun k => nth k row NaN) (seq 0 n) = row.
Proof. intros <-. apply map_nth_seq. Qed.

(** Entry [(i, j)] of [a . a.H] is the product of row [i] of [a] with the
    conjugate of its row [j]. *)
Lemma gram_entry (n : nat) (a : list (list cnum)) (i j : nat) :
  square n a -> (i < n)%nat -> (j < n)%nat ->
  entry (mat_mul (Dense a) (mat_H (Dense a))) i j =
  csum (zip_with cmul (nth i a []) (map cconj (nth j a []))).
Proof.
  intros Hsq Hi Hj. pose proof Hsq as [Hl Hr].
  assert (Hn : (0 < n)%nat) by lia.
  cbn [mat_H mat_mul entry]. unfold dense_mul.
  rewrite (square_ncols n a Hsq Hn).
  rewrite (nth_map_default _ a i [] []) by lia.
  assert (Hb : ncols (map (fun j0 => map (fun row => cconj (nth j0 row NaN)) a)
                          (seq 0 n)) = n).
  { destruct n as [| n']; [lia |]. cbn [seq map ncols].
    rewrite length_map. exact Hl. }
  rewrite Hb.
  rewrite (map_seq_nth _ n j NaN) by exact Hj.
  f_equal. f_equal.
  rewrite map_map.
  rewrite (map_ext _ (fun k => cconj (nth k (nth j a []) NaN))).
  - rewrite <- (map_map (fun k => nth k (nth j a []) NaN) cconj).
    rewrite row_nth_seq by (apply (square_row n); assumption).
    reflexivity.
  - intros k.
    apply (nth_map_default (fun row => cconj (nth k row NaN)) a j [] NaN).
    lia.
Qed.

Lemma gram_shape (n : nat) (a : list (list cnum)) :
  square n a -> (0 < n)%nat ->
  exists b, mat_mul (Dense a) (mat_H (Dense a)) = Dense b /\ square n b.
Proof.
  intros Hsq Hn. pose proof Hsq as [Hl Hr].
  cbn [mat_H mat_mul]. eexists. split; [reflexivity |].
  unfold dense_mul. rewrite (square_ncols n a Hsq Hn).
  assert (Hb : ncols (map (fun j0 => map (fun row => cconj (nth j0 row NaN)) a)
                          (seq 0 n)) = n).
  { destruct n as [| n']; [lia |]. cbn [seq map ncols].
    rewrite length_map. exact Hl. }
  rewrite Hb. split.
  - rewrite length_map; exact Hl.
  - intros row Hin. apply in_map_iff in Hin as [r0 [<- _]].
    rewrite length_map, length_seq. reflexivity.
Qed.

(** A product with its conjugate transpose equals its own conjugate
    transpose. *)
Lemma gram_hermitian (n : nat) (a : list (list cnum)) :
  square n a -> hermitian n (mat_mul (Dense a) (mat_H (Dense a))).
Proof.
  intros Hsq i j Hi Hj.
  rewrite (gram_entry n a i j Hsq Hi Hj), (gram_entry n a j i Hsq Hj Hi).
  rewrite cconj_csum. f_equal.
  rewrite map_zip_with, !zip_with_map_r.
  rewrite (zip_with_flip _ (nth j a [])).
  apply zip_with_ext. intros x y.
  rewrite cconj_cmul, cconj_invol. apply cmul_comm.
Qed.

(** Its diagonal entry [i] is the squared norm of row [i]. *)
Lemma gram_diagonal (n : nat) (a : list (list cnum)) (i : nat) :
  square n a -> (i < n)%nat ->
  entry (mat_mul (Dense a) (mat_H (Dense a))) i i =
  csum (map cabs2 (nth i a [])).
Proof.
  intros Hsq Hi. rewrite (gram_entry n a i i Hsq Hi Hi).
  rewrite zip_with_map_r, zip_with_same. f_equal.
  apply map_ext; intros x. apply cmul_cconj.
Qed.

(** ** The phase correction keeps the products of rows *)

Lemma phase_is_unit (x : cnum) : nonzero x -> unit_phase (cdiv x (cabs x)).
Proof.
  intros [z [-> Hz]]. pose proof (Cmod_neq0 z Hz) as Hm.
  cbn [cabs]. rewrite cdiv_real by exact Hm.
  eexists. split; [reflexivity |].
  unfold Cnorm2 at 1; cbn [Re Im].
  replace (Re z / Cmod z * (Re z / Cmod z) + Im z / Cmod z * (Im z / Cmod z))
    with (Cnorm2 z / (Cmod z * Cmod z))
    by (unfold Cnorm2; field; exact Hm).
  unfold Cmod. rewrite sqrt_sqrt by (unfold Cnorm2; nra).
  apply Rinv_r. intros E. apply Hm. unfold Cmod. rewrite E. apply sqrt_0.
Qed.

Lemma cmul_phase_cancel (a b l : cnum) :
  unit_phase l -> cmul (cmul a l) (cconj (cmul b l)) = cmul a (cconj b).
Proof.
  intros [w [-> Hw]]. destruct a as [a |], b as [b |]; simpl; auto.
  f_equal. unfold Cnorm2 in Hw. unfold Cmult, Cconj; cbn [Re Im].
  apply C_eq.
  - replace ((Re a * Re w - Im a * Im w) * (Re b * Re w - Im b * Im w)
             - (Re a * Im w + Im a * Re w) * - (Re b * Im w + Im b * Re w))
      with ((Re a * Re b + Im a * Im b) * (Re w * Re w + Im w * Im w))
      by ring.
    rewrite Hw. ring.
  - replace ((Re a * Re w - Im a * Im w) * - (Re b * Im w + Im b * Re w)
             + (Re a * Im w + Im a * Re w) * (Re b * Re w - Im b * Im w))
      with ((Im a * Re b - Re a * Im b) * (Re w * Re w + Im w * Im w))
      by ring.
    rewrite Hw. ring.
Qed.

Lemma gram_phase (lam qi qj : list cnum) :
  Forall unit_phase lam ->
  length qi = length lam -> length qj = length lam ->
  zip_with cmul (zip_with cmul qi lam) (map cconj (zip_with cmul qj lam)) =
  zip_with cmul qi (map cconj qj).
Proof.
  unfold zip_with. intros Hu. revert qi qj.
  induction Hu as [| l lam Hl Hlam IH]; intros [| a qi] [| b qj] H1 H2;
    simpl in *; try reflexivity; try discriminate.
  f_equal.
  - apply cmul_phase_cancel; exact Hl.
  - apply IH; lia.
Qed.

Section HaarGram.

Variable sp_random : Z -> Z -> string -> R -> M (list (nat * nat)).
Variable qr : list (list cnum) -> list (list cnum) * list (list cnum).

Hypothesis qr_square :
  forall n a, square n a -> square n (fst (qr a)) /\ square n (snd (qr a)).

(** For [d >= 1], when every diagonal entry of [R] is a number that is not
    zero, the matrix [U] that [rand_uni] returns is square of order [d] and
    [U . U.H] equals [Q . Q.H], entry by entry: the correction by the
    phases changes no product of two rows, so [U] is unitary whenever the
    factor [Q] is. *)
Theorem rand_uni_keeps_gram (d : Z) (g : rng) :
  (1 <= d)%Z ->
  Forall nonzero (diagonal (snd (qr (scaled_dense d g)))) ->
  exists U g',
    rand_uni sp_random qr d g = Ok (Dense U, g') /\
    square (Z.to_nat d) U /\
    forall i j, (i < Z.to_nat d)%nat -> (j < Z.to_nat d)%nat ->
      entry (mat_mul (Dense U) (mat_H (Dense U))) i j =
      entry (mat_mul (Dense (fst (qr (scaled_dense d g))))
                     (mat_H (Dense (fst (qr (scaled_dense d g)))))) i j.
Proof.
  intros Hd Hnz.
  destruct (qr_square _ _ (scaled_dense_square d g)) as [Hq Hr].
  set (q := fst (qr (scaled_dense d g))) in *.
  set (r := snd (qr (scaled_dense d g))) in *.
  set (n := Z.to_nat d) in *.
  assert (Hn : (0 < n)%nat) by (unfold n; lia).
  assert (Hlam : length (phases (diagonal r)) = n).
  { unfold phases, diagonal. rewrite !length_map, length_seq.
    rewrite (square_ncols _ r Hr Hn).
    destruct Hr as [Hl _]. rewrite Hl. lia. }
  assert (Hunit : Forall unit_phase (phases (diagonal r))).
  { unfold phases. apply Forall_map.
    eapply Forall_impl; [| exact Hnz]. intros x Hx. apply phase_is_unit; exact Hx. }
  pose proof Hq as [Hql Hqr].
  assert (HU : square n (map (fun row => zip_with cmul row (phases (diagonal r))) q)).
  { split.
    - rewrite length_map; exact Hql.
    - intros row Hin. apply in_map_iff in Hin as [r0 [<- Hin]].
      rewrite zip_with_length, Hlam, (Hqr r0 Hin). lia. }
  eexists. eexists. split; [| split].
  - rewrite rand_uni_run by lia. fold q. fold r. unfold rdmul. reflexivity.
  - exact HU.
  - intros i j Hi Hj.
    rewrite (gram_entry n _ i j HU Hi Hj), (gram_entry n q i j Hq Hi Hj).
    rewrite (nth_map_default _ q i [] []) by lia.
    rewrite (nth_map_default _ q j [] []) by lia.
    rewrite gram_phase; [reflexivity | exact Hunit | |];
      rewrite Hlam; apply (square_row n); assumption.
Qed.

End HaarGram.

Lemma rand_uni_keeps_gram_witness :
  (1 <= 2)%Z /\
  Forall nonzero
         (diagonal (snd (qr_trivial (scaled_dense 2 (rng_const 1 0))))) /\
  exists U g',
    rand_uni sp_empty qr_trivial 2 (rng_const 1 0) = Ok (Dense U, g') /\
    square (Z.to_nat 2) U.
Proof.
  assert (Hnz : Forall nonzero
            (diagonal (snd (qr_trivial (scaled_dense 2 (rng_const 1 0)))))).
  { rewrite scaled_dense_2_ones.
    change (diagonal (snd (qr_trivial
              [[Fin (mkC (1 / 2) (1 / 2)); Fin (mkC (1 / 2) (1 / 2))];
               [Fin (mkC (1 / 2) (1 / 2)); Fin (mkC (1 / 2) (1 / 2))]])))
      with [Fin (mkC (1 / 2) (1 / 2)); Fin (mkC (1 / 2) (1 / 2))].
    assert (H : nonzero (Fin (mkC (1 / 2) (1 / 2)))).
    { eexists. split; [reflexivity |]. unfold C0. intros E.
      injection E as E1 _. lra. }
    repeat constructor; exact H. }
  split; [lia |]. split; [exact Hnz |].
  destruct (rand_uni_keeps_gram sp_empty qr_trivial qr_trivial_square 2
              (rng_const 1 0) ltac:(lia) Hnz) as [U [g' [E [Hs _]]]].
  exists U, g'. split; [exact E | exact Hs].
Defined.

(** ** The positive builder and the density matrix *)

Lemma is_fin_cdiv_real (x : cnum) (s : R) :
  s <> 0 -> is_fin x -> is_fin (cdiv x (creal s)).
Proof.
  intros Hs [z ->]. rewrite cdiv_real by exact Hs. eexists; reflexivity.
Qed.

Lemma csum_cabs2_fin (l : list cnum) :
  Forall is_fin l -> exists r, csum (map cabs2 l) = creal r /\ 0 <= r.
Proof.
  unfold csum. induction 1 as [| x l [z ->] Hl [r [IH Hr]]];
    cbn [map fold_right].
  - exists 0. split; [reflexivity | lra].
  - rewrite IH. exists (Cnorm2 z + r). split.
    + cbn [cabs2]. unfold creal. cbn [cadd]. f_equal.
      unfold Cplus; cbn [Re Im]. apply C_eq; ring.
    + unfold Cnorm2. nra.
Qed.

Lemma csum_concat (f : cnum -> cnum) (a : list (list cnum)) :
  csum (map f (concat a)) = csum (map (fun row => csum (map f row)) a).
Proof.
  induction a as [| row a IH]; [reflexivity |].
  cbn [concat map]. rewrite map_app, csum_app, IH. reflexivity.
Qed.

Lemma map_nth_seq_gen {A} (l : list A) (d : A) :
  map (fun i => nth i l d) (seq 0 (length l)) = l.
Proof.
  apply (nth_ext _ _ d d).
  - rewrite length_map, length_seq; reflexivity.
  - intros n Hn. rewrite length_map, length_seq in Hn.
    apply (map_seq_nth (fun k => nth k l d)); exact Hn.
Qed.

Lemma csum_cdiv_real (l : list cnum) (t : R) :
  t <> 0 ->
  csum (map (fun v => cdiv v (creal t)) l) = cdiv (csum l) (creal t).
Proof.
  intros Ht. unfold csum. induction l as [| x l IH]; cbn [map fold_right].
  - symmetry; apply cdiv_0_real; exact Ht.
  - rewrite IH. symmetry; apply cdiv_cadd_real.
Qed.

Lemma square_diagonal (n : nat) (a : list (list cnum)) :
  square n a ->
  diagonal a = map (fun i => nth i (nth i a []) NaN) (seq 0 n).
Proof.
  intros Hsq. unfold diagonal. destruct (Nat.eq_dec n 0) as [-> | Hn].
  - destruct Hsq as [Hl _]. rewrite Hl. reflexivity.
  - rewrite (square_ncols n a Hsq) by lia.
    destruct Hsq as [Hl _]. rewrite Hl, Nat.min_id. reflexivity.
Qed.

(** The trace of a product with its conjugate transpose is the squared
    norm of the matrix. *)
Lemma gram_trace (n : nat) (a b : list (list cnum)) :
  square n a ->
  mat_mul (Dense a) (mat_H (Dense a)) = Dense b -> square n b ->
  trace b = norm2 a.
Proof.
  intros Hsq E Hb. unfold trace, norm2.
  rewrite (square_diagonal n b Hb), csum_concat.
  rewrite <- (map_nth_seq_gen a []) at 1.
  destruct Hsq as [Hl Hr]. rewrite Hl, map_map. f_equal.
  apply map_ext_in. intros i Hi. apply in_seq in Hi.
  change (nth i (nth i b []) NaN) with (entry (Dense b) i i).
  rewrite <- E. apply (gram_diagonal n); [split; assumption | lia].
Qed.

Lemma half_scaled_dense_square (d : Z) (g : rng) :
  square (Z.to_nat d) (half_scaled_dense d g).
Proof.
  destruct (scaled_dense_square d g) as [Hl Hr].
  unfold half_scaled_dense. split.
  - rewrite length_map; exact Hl.
  - intros row Hin. apply in_map_iff in Hin as [r0 [<- Hin]].
    rewrite length_map. apply Hr; exact Hin.
Qed.

Lemma half_scaled_dense_fin (d : Z) (g : rng) :
  (1 <= d)%Z -> Forall (Forall is_fin) (half_scaled_dense d g).
Proof.
  intros Hd.
  assert (Hs : sqrt (2 * IZR d * 1) <> 0).
  { apply IZR_le in Hd.
    pose proof (sqrt_lt_R0 (2 * IZR d * 1) ltac:(lra)). lra. }
  unfold half_scaled_dense, scaled_dense, raw_dense.
  rewrite !map_map. apply Forall_map. apply Forall_forall. intros i _.
  rewrite !map_map. apply Forall_map. apply Forall_forall. intros j _.
  apply is_fin_cdiv_real; [lra |].
  apply is_fin_cdiv_real; [exact Hs |]. eexists; reflexivity.
Qed.

Section PositiveBuilder.

Variable sp_random : Z -> Z -> string -> R -> M (list (nat * nat)).

Lemma rand_pos_dense_run (d : Z) (rho : R) (g : rng) :
  (1 <= d)%Z ->
  rand_pos sp_random d false (Some rho) g =
  Ok (mat_mul (Dense (half_scaled_dense d g))
              (mat_H (Dense (half_scaled_dense d g))),
      advance (Z.to_nat d * Z.to_nat d)
              (advance (Z.to_nat d * Z.to_nat d) g)).
Proof.
  intros Hd. unfold rand_pos. cbn [is_none andb].
  unfold bind, py_div_opt, py_div.
  destruct (Req_dec_T (IZR d) 0) as [E | _];
    [apply IZR_le in Hd; lra |].
  unfold ret.
  rewrite (rand_matrix_dense_scaled sp_random d "csr"%string _ g) by lia.
  reflexivity.
Qed.

(** In dense mode, for [d >= 1] and a density that is not negative,
    [rand_pos] returns the square matrix [pos . pos.H] of order [d], with
    [pos] the scaled sample halved: entry [(i, j)] is the product of row
    [i] of [pos] with the conjugate of row [j]. It equals its own conjugate
    transpose, and its diagonal entries are real and not negative. The
    density changes nothing. *)
Theorem rand_pos_gram (d : Z) (rho : R) (g : rng) :
  (1 <= d)%Z -> 0 <= rho ->
  let P := half_scaled_dense d g in
  exists A g',
    rand_pos sp_random d false (Some rho) g = Ok (Dense A, g') /\
    square (Z.to_nat d) A /\
    hermitian (Z.to_nat d) (Dense A) /\
    (forall i j, (i < Z.to_nat d)%nat -> (j < Z.to_nat d)%nat ->
       entry (Dense A) i j =
       csum (zip_with cmul (nth i P []) (map cconj (nth j P [])))) /\
    (forall i, (i < Z.to_nat d)%nat ->
       exists r, entry (Dense A) i i = creal r /\ 0 <= r) /\
    (forall rho', 0 <= rho' ->
       rand_pos sp_random d false (Some rho') g = Ok (Dense A, g')).
Proof.
  intros Hd Hrho P.
  pose proof (half_scaled_dense_square d g) as Hsq. fold P in Hsq.
  destruct (gram_shape _ P Hsq ltac:(lia)) as [A [E HA]].
  exists A. eexists. split; [| split; [| split; [| split; [| split]]]].
  - rewrite rand_pos_dense_run by lia. fold P. rewrite E. reflexivity.
  - exact HA.
  - rewrite <- E. apply gram_hermitian; exact Hsq.
  - intros i j Hi Hj. rewrite <- E. apply (gram_entry _ P i j Hsq Hi Hj).
  - intros i Hi. rewrite <- E. rewrite (gram_diagonal _ P i Hsq Hi).
    apply csum_cabs2_fin.
    pose proof (half_scaled_dense_fin d g Hd) as Hfin. fold P in Hfin.
    rewrite Forall_forall in Hfin. apply Hfin. apply nth_In.
    destruct Hsq as [Hl _]. lia.
  - intros rho' _. rewrite rand_pos_dense_run by lia. fold P. rewrite E.
    reflexivity.
Qed.

End PositiveBuilder.

Lemma rand_pos_gram_witness :
  (1 <= 2)%Z /\ 0 <= 1 /\
  exists A g',
    rand_pos sp_empty 2 false (Some 1) (rng_const 1 0) = Ok (Dense A, g') /\
    square (Z.to_nat 2) A /\
    hermitian (Z.to_nat 2) (Dense A).
Proof.
  split; [lia |]. split; [lra |].
  destruct (rand_pos_gram sp_empty 2 1 (rng_const 1 0) ltac:(lia) ltac:(lra))
    as [A [g' [E [Hs [Hh _]]]]].
  exists A, g'. split; [exact E |]. split; [exact Hs | exact Hh].
Defined.

Lemma trace_div_real (n : nat) (a : list (list cnum)) (t : R) :
  square n a -> t <> 0 ->
  trace (map (map (fun v => cdiv v (creal t))) a) = cdiv (trace a) (creal t).
Proof.
  intros Hsq Ht.
  assert (Hsq' : square n (map (map (fun v => cdiv v (creal t))) a)).
  { destruct Hsq as [Hl Hr]. split.
    - rewrite length_map; exact Hl.
    - intros row Hin. apply in_map_iff in Hin as [r0 [<- Hin]].
      rewrite length_map. apply Hr; exact Hin. }
  unfold trace.
  rewrite (square_diagonal n _ Hsq'), (square_diagonal n a Hsq).
  rewrite <- csum_cdiv_real by exact Ht. rewrite map_map. f_equal.
  apply map_ext_in. intros i Hi. apply in_seq in Hi.
  change (nth i (nth i (map (map (fun v => cdiv v (creal t))) a) []) NaN)
    with (entry (mat_div (Dense a) (creal t)) i i).
  rewrite mat_div_entry by exact Ht. reflexivity.
Qed.

Section DensityMatrix.

Variable sp_random : Z -> Z -> string -> R -> M (list (nat * nat)).

(** In dense mode, for [d >= 2] and a density that is not negative, when
    the sample is not the zero matrix [rand_rho] returns a square matrix
    of order [d] whose trace is exactly 1 and which equals its own
    conjugate transpose. *)
Theorem rand_rho_unit_trace (d : Z) (rho : R) (g : rng) :
  (2 <= d)%Z -> 0 <= rho ->
  norm2 (half_scaled_dense d g) <> creal 0 ->
  exists A g',
    rand_rho sp_random d false (Some rho) g = Ok (Dense A, g') /\
    square (Z.to_nat d) A /\
    trace A = creal 1 /\
    hermitian (Z.to_nat d) (Dense A).
Proof.
  intros Hd Hrho Hne.
  set (P := half_scaled_dense d g) in *.
  pose proof (half_scaled_dense_square d g) as Hsq. fold P in Hsq.
  destruct (gram_shape _ P Hsq ltac:(lia)) as [A0 [E HA0]].
  pose proof (gram_trace _ P A0 Hsq E HA0) as Htr.
  assert (Hfin : Forall is_fin (concat P)).
  { apply Forall_concat. apply half_scaled_dense_fin. lia. }
  destruct (csum_cabs2_fin _ Hfin) as [t [Ht Ht0]].
  fold (norm2 P) in Ht.
  assert (Htne : t <> 0).
  { intros E0. apply Hne. rewrite Ht, E0. reflexivity. }
  assert (Hrun : rand_rho sp_random d false (Some rho) g =
                 Ok (Dense (map (map (fun v => cdiv v (creal t))) A0),
                     advance (Z.to_nat d * Z.to_nat d)
                             (advance (Z.to_nat d * Z.to_nat d) g))).
  { unfold rand_rho, bind. rewrite rand_pos_dense_run by lia.
    fold P. rewrite E. unfold ret, nmlz. cbn [dense_of].
    rewrite (square_ncols _ A0 HA0) by lia.
    replace (Nat.eqb (Z.to_nat d) 1) with false
      by (symmetry; apply Nat.eqb_neq; lia).
    rewrite Htr, Ht. reflexivity. }
  eexists. eexists. split; [exact Hrun |]. split; [| split].
  - destruct HA0 as [Hl Hr]. split.
    + rewrite length_map; exact Hl.
    + intros row Hin. apply in_map_iff in Hin as [r0 [<- Hin]].
      rewrite length_map. apply Hr; exact Hin.
  - rewrite (trace_div_real _ A0 t HA0 Htne), Htr, Ht.
    unfold creal at 1. rewrite cdiv_real by exact Htne.
    unfold creal. f_equal. cbn [Re Im]. apply C_eq; field; exact Htne.
  - intros i j Hi Hj.
    change (Dense (map (map (fun v => cdiv v (creal t))) A0))
      with (mat_div (Dense A0) (creal t)).
    rewrite !mat_div_entry by exact Htne.
    rewrite cconj_cdiv_real. f_equal.
    rewrite <- E. apply (gram_hermitian _ P Hsq i j Hi Hj).
Qed.

(** With [sparse] false and no density [rand_rho] raises the [TypeError]
    of [rand_pos], whatever the order is: its default call returns no
    matrix and draws nothing. *)
Theorem rand_rho_default_type_error (d : Z) (g : rng) :
  rand_rho sp_random d false None g = Raise TypeError.
Proof. reflexivity. Qed.

End DensityMatrix.

Lemma rand_rho_unit_trace_witness :
  (2 <= 2)%Z /\ 0 <= 1 /\
  exists A g',
    rand_rho sp_empty 2 false (Some 1) (rng_const 1 0) = Ok (Dense A, g') /\
    square (Z.to_nat 2) A /\
    trace A = creal 1.
Proof.
  split; [lia |]. split; [lra |].
  destruct (rand_rho_unit_trace sp_empty 2 1 (rng_const 1 0)
              ltac:(lia) ltac:(lra)) as [A [g' [E [Hs [Ht _]]]]].
  - unfold half_scaled_dense. rewrite scaled_dense_2_ones.
    assert (E : cdiv (Fin (mkC (1 / 2) (1 / 2))) (creal 2)
                = Fin (mkC (1 / 4) (1 / 4))).
    { rewrite cdiv_real by lra. cbn [Re Im]. f_equal. apply C_eq; field. }
    cbn [map]. rewrite E. intros H.
    apply (f_equal (fun x => match x with Fin z => Re z | NaN => 0 end)) in H.
    cbv [norm2 csum concat app map fold_right cabs2 creal cadd Cplus Cnorm2
         Re Im] in H.
    lra.
  - exists A, g'. split; [exact E |]. split; [exact Hs | exact Ht].
Defined.

(** ** The Hermitian builder, dense and sparse *)

Lemma in_zip_with {A B D} (f : A -> B -> D) (l : list A) (l' : list B) (x : D) :
  In x (zip_with f l l') -> exists a b, In a l /\ In b l' /\ x = f a b.
Proof.
  unfold zip_with. intros H. apply in_map_iff in H as [[a b] [<- Hin]].
  exists a, b. split; [eapply in_combine_l; exact Hin |].
  split; [eapply in_combine_r; exact Hin | reflexivity].
Qed.

Lemma symmetrise_square (n : nat) (a : list (list cnum)) :
  square n a ->
  exists h, mat_add (Dense a) (mat_H (Dense a)) = Dense h /\ square n h.
Proof.
  intros Hsq. cbn [mat_H mat_add]. eexists. split; [reflexivity |].
  pose proof Hsq as [Hl Hr]. unfold dense_add.
  destruct (Nat.eq_dec n 0) as [-> | Hn].
  - destruct a; [| discriminate]. split; [reflexivity | intros row []].
  - rewrite (square_ncols n a Hsq) by lia. split.
    + rewrite zip_with_length, length_map, length_seq, Hl. lia.
    + intros row Hin. apply in_zip_with in Hin as [r1 [r2 [H1 [H2 ->]]]].
      apply in_map_iff in H2 as [j [<- _]].
      rewrite zip_with_length, length_map, Hl, (Hr r1 H1). lia.
Qed.

Section HermitianModes.

Variable sp_random : Z -> Z -> string -> R -> M (list (nat * nat)).

(** In dense mode, for every [d >= 0] and every density given,
    [rand_herm] returns a square matrix of order [d] that equals its own
    conjugate transpose: entry [(i, j)] is [(M_ij + conj(M_ji)) / 2 ** 1.5]
    with [M] the scaled dense sample. The density changes nothing, and
    order 0 gives the empty matrix. *)
Theorem rand_herm_dense_hermitian (d : Z) (rho : R) (g : rng) :
  (0 <= d)%Z ->
  exists H g',
    rand_herm sp_random d false (Some rho) g = Ok (Dense H, g') /\
    square (Z.to_nat d) H /\
    hermitian (Z.to_nat d) (Dense H) /\
    (forall i j, (i < Z.to_nat d)%nat -> (j < Z.to_nat d)%nat ->
       entry (Dense H) i j =
       cdiv (cadd (entry (Dense (scaled_dense d g)) i j)
                  (cconj (entry (Dense (scaled_dense d g)) j i)))
            (creal (Rpower 2 (3 / 2)))) /\
    (forall rho', rand_herm sp_random d false (Some rho') g = Ok (Dense H, g')) /\
    (d = 0%Z -> H = []).
Proof.
  intros Hd.
  assert (Hs : Rpower 2 (3 / 2) <> 0).
  { unfold Rpower. pose proof (exp_pos (3 / 2 * ln 2)). lra. }
  set (a := map (map (fun v => cdiv v (creal (Rpower 2 (3 / 2)))))
                (scaled_dense d g)).
  assert (Ha : square (Z.to_nat d) a).
  { destruct (scaled_dense_square d g) as [Hl Hr]. unfold a. split.
    - rewrite length_map; exact Hl.
    - intros row Hin. apply in_map_iff in Hin as [r0 [<- Hin]].
      rewrite length_map. apply Hr; exact Hin. }
  destruct (symmetrise_square _ a Ha) as [H [E HH]].
  destruct (symmetrise_hermitian (Z.to_nat d) (Dense a) Ha) as [Hent Hherm].
  assert (Hrun : forall rho0,
             rand_herm sp_random d false (Some rho0) g =
             Ok (Dense H, advance (Z.to_nat d * Z.to_nat d)
                                  (advance (Z.to_nat d * Z.to_nat d) g))).
  { intros rho0. rewrite rand_herm_given.
    rewrite (rand_matrix_dense_scaled sp_random d "csr"%string _ g Hd).
    fold (scaled_dense d g). cbn [mat_div]. fold a. cbv zeta.
    rewrite E. reflexivity. }
  exists H. eexists. split; [apply Hrun |].
  split; [exact HH |]. split; [| split; [| split]].
  - rewrite <- E. exact Hherm.
  - intros i j Hi Hj. rewrite <- E, (Hent i j Hi Hj).
    change (Dense a)
      with (mat_div (Dense (scaled_dense d g)) (creal (Rpower 2 (3 / 2)))).
    rewrite !mat_div_entry by exact Hs.
    rewrite cconj_cdiv_real, cdiv_cadd_real. reflexivity.
  - intros rho'. apply Hrun.
  - intros ->. destruct HH as [Hl _]. destruct H; [reflexivity | discriminate].
Qed.

(** In sparse mode with no density, for [d >= 1], [rand_herm] hands half
    of [min(0.5, 10/d)] to the sparse sampler and fails exactly when that
    sampler does. The matrix returned equals its own conjugate transpose,
    and an entry is zero as soon as neither its place nor the transposed
    place was selected. *)
Theorem rand_herm_sparse_hermitian (d : Z) (g : rng) :
  (1 <= d)%Z ->
  match sp_random d d "csr"%string (Rmin (1 / 2) (10 / IZR d) / 2) g with
  | Raise e => rand_herm sp_random d true None g = Raise e
  | Ok (pat, g1) =>
      exists H,
        rand_herm sp_random d true None g =
          Ok (H, advance (length pat) (advance (length pat) g1)) /\
        (forall i j, entry H i j = cconj (entry H j i)) /\
        (forall i j, ~ In (i, j) pat -> ~ In (j, i) pat ->
                     entry H i j = creal 0)
  end.
Proof.
  intros Hd.
  assert (Hs : Rpower 2 (3 / 2) <> 0).
  { unfold Rpower. pose proof (exp_pos (3 / 2 * ln 2)). lra. }
  assert (Hpos : sqrt (2 * IZR d * (Rmin (1 / 2) (10 / IZR d) / 2)) <> 0).
  { apply IZR_le in Hd as HdR.
    assert (Hq : 0 < 10 / IZR d) by (apply Rdiv_lt_0_compat; lra).
    assert (Hm : 0 < Rmin (1 / 2) (10 / IZR d))
      by (apply Rmin_glb_lt; lra).
    apply Rgt_not_eq. apply sqrt_lt_R0. nra. }
  rewrite rand_herm_sparse_default by exact Hd.
  rewrite rand_herm_given, rand_matrix_sparse_given by (intros _; exact Hpos).
  destruct (sp_random d d "csr"%string (Rmin (1 / 2) (10 / IZR d) / 2) g)
    as [[pat g1] | e]; [| reflexivity].
  cbv zeta. rewrite mat_div_sparse_of.
  set (vals := map (fun v => cdiv v (creal (Rpower 2 (3 / 2)))) _).
  eexists. split; [reflexivity |].
  assert (Hent : forall i j,
            entry (mat_add (sparse_of d d pat vals)
                           (mat_H (sparse_of d d pat vals))) i j =
            cadd (entry (sparse_of d d pat vals) i j)
                 (cconj (entry (sparse_of d d pat vals) j i))).
  { intros i j. unfold sparse_of. cbn [mat_H mat_add entry].
    rewrite stored_app, stored_H. reflexivity. }
  split.
  - intros i j. rewrite (Hent i j), (Hent j i).
    rewrite cconj_cadd, cconj_invol. apply cadd_comm.
  - intros i j H1 H2. rewrite Hent.
    rewrite !sparse_of_unstored by assumption.
    rewrite cconj_0. apply cadd_0_l.
Qed.

End HermitianModes.

Lemma rand_herm_dense_hermitian_witness :
  (0 <= 2)%Z /\
  exists H g',
    rand_herm sp_empty 2 false (Some 5) (rng_const 1 0) = Ok (Dense H, g') /\
    square (Z.to_nat 2) H /\
    hermitian (Z.to_nat 2) (Dense H).
Proof.
  split; [lia |].
  destruct (rand_herm_dense_hermitian sp_empty 2 5 (rng_const 1 0) ltac:(lia))
    as [H [g' [E [Hs [Hh _]]]]].
  exists H, g'. split; [exact E |]. split; [exact Hs | exact Hh].
Defined.

Lemma rand_herm_sparse_hermitian_witness :
  (1 <= 2)%Z /\
  exists H g',
    rand_herm sp_corner 2 true None (rng_const 1 0) = Ok (H, g') /\
    (forall i j, entry H i j = cconj (entry H j i)) /\
    entry H 1 1 = creal 0.
Proof.
  split; [lia |].
  pose proof (rand_herm_sparse_hermitian sp_corner 2 (rng_const 1 0)
                ltac:(lia)) as P.
  unfold sp_corner at 1, ret in P.
  destruct P as [H [E [Hh Hz]]].
  exists H. eexists. split; [exact E |]. split; [exact Hh |].
  apply Hz; intros [E1 | []]; discriminate.
Defined.

(** ** The mixed state equals its conjugate transpose *)




(** ** Orders that are not positive *)

(** A negative order is rejected by the dense sampler: in dense mode
    [rand_matrix], [rand_herm] with a density, [rand_ket], [rand_uni] and
    [rand_haar_state] all raise its [ValueError], and return nothing. *)
Theorem negative_order_value_error
  (sp_random : Z -> Z -> string -> R -> M (list (nat * nat)))
  (qr : list (list cnum) -> list (list cnum) * list (list cnum))
  (d : Z) (scaled : bool) (format : string) (density : option R) (rho : R)
  (g : rng) :
  (d < 0)%Z ->
  rand_matrix sp_random d scaled false format density g = Raise ValueError /\
  rand_herm sp_random d false (Some rho) g = Raise ValueError /\
  rand_ket sp_random d false format rho g = Raise ValueError /\
  rand_uni sp_random qr d g = Raise ValueError /\
  rand_haar_state sp_random qr d g = Raise ValueError.
Proof.
  intros Hd.
  assert (Hm : forall sc dens,
             rand_matrix sp_random d sc false format dens g = Raise ValueError).
  { intros sc dens. unfold rand_matrix, bind.
    rewrite (randn2_negative d d g Hd). reflexivity. }
  assert (Hm' : forall sc dens,
             rand_matrix sp_random d sc false "csr"%string dens g
             = Raise ValueError).
  { intros sc dens. unfold rand_matrix, bind.
    rewrite (randn2_negative d d g Hd). reflexivity. }
  assert (Hu : rand_uni sp_random qr d g = Raise ValueError).
  { unfold rand_uni, bind. rewrite Hm'. reflexivity. }
  split; [apply Hm |]. split; [| split; [| split]].
  - rewrite rand_herm_given, Hm'. reflexivity.
  - unfold rand_ket, bind. rewrite (randn2_negative d 1 g Hd). reflexivity.
  - exact Hu.
  - unfold rand_haar_state, bind. rewrite Hu. reflexivity.
Qed.

Lemma negative_order_value_error_witness :
  (-1 < 0)%Z /\
  rand_matrix sp_empty (-1) true false "csr"%string None (rng_const 1 0)
  = Raise ValueError /\
  rand_uni sp_empty qr_trivial (-1) (rng_const 1 0) = Raise ValueError.
Proof.
  split; [lia |].
  destruct (negative_order_value_error sp_empty qr_trivial (-1) true
              "csr"%string None 1 (rng_const 1 0) ltac:(lia))
    as [H1 [_ [_ [H4 _]]]].
  split; [exact H1 | exact H4].
Defined.

(** Order 0 divides by zero wherever the order is a divisor: the default
    density [10/d] of the sparse mode, in [rand_matrix] and [rand_herm],
    and [density/d] in [rand_pos] and [rand_rho], in both modes, raise a
    [ZeroDivisionError]; the dense [rand_matrix] and the dense [rand_herm]
    with a density divide by nothing of the kind and return the empty
    matrix. *)
Theorem order_zero_division
  (sp_random : Z -> Z -> string -> R -> M (list (nat * nat)))
  (scaled sparse : bool) (format : string) (density : option R) (rho : R)
  (g : rng) :
  rand_matrix sp_random 0 scaled true format None g = Raise ZeroDivisionError /\
  rand_herm sp_random 0 true None g = Raise ZeroDivisionError /\
  rand_pos sp_random 0 sparse (Some rho) g = Raise ZeroDivisionError /\
  rand_pos sp_random 0 true None g = Raise ZeroDivisionError /\
  rand_rho sp_random 0 sparse (Some rho) g = Raise ZeroDivisionError /\
  rand_matrix sp_random 0 scaled false format density g = Ok (Dense [], g) /\
  rand_herm sp_random 0 false (Some rho) g = Ok (Dense [], g).
Proof.
  assert (Hdiv : forall x g0, py_div x (IZR 0) g0 = Raise ZeroDivisionError).
  { intros x g0. unfold py_div.
    destruct (Req_dec_T (IZR 0) 0) as [_ | E]; [reflexivity |].
    exfalso; apply E; reflexivity. }
  assert (Hdd : forall g0, default_density 0 g0 = Raise ZeroDivisionError).
  { intros g0. unfold default_density, bind. rewrite Hdiv. reflexivity. }
  assert (Hpos : forall sp, rand_pos sp_random 0 sp (Some rho) g
                            = Raise ZeroDivisionError).
  { intros sp. unfold rand_pos. cbn [is_none andb].
    unfold bind at 1. unfold ret at 1. unfold bind at 1.
    unfold py_div_opt. rewrite Hdiv. reflexivity. }
  assert (Hm0 : forall sc dens,
             rand_matrix sp_random 0 sc false format dens g = Ok (Dense [], g)).
  { intros sc dens. destruct sc.
    - rewrite (rand_matrix_dense_scaled sp_random 0 format dens g) by lia.
      change (Z.to_nat 0 * Z.to_nat 0)%nat with 0%nat.
      rewrite !advance_0. reflexivity.
    - rewrite (rand_matrix_dense_raw sp_random 0 format dens g) by lia.
      change (Z.to_nat 0 * Z.to_nat 0)%nat with 0%nat.
      rewrite !advance_0. reflexivity. }
  split; [| split; [| split; [| split; [| split; [| split]]]]].
  - unfold rand_matrix. unfold bind at 1. unfold bind at 1. unfold bind at 1.
    rewrite Hdd. reflexivity.
  - unfold rand_herm. cbn [is_none andb]. unfold bind at 1. unfold bind at 1.
    rewrite Hdd. reflexivity.
  - apply Hpos.
  - unfold rand_pos. cbn [is_none andb]. unfold bind at 1. unfold bind at 1.
    rewrite Hdd. reflexivity.
  - unfold rand_rho, bind. rewrite Hpos. reflexivity.
  - apply Hm0.
  - rewrite rand_herm_given.
    rewrite (rand_matrix_dense_scaled sp_random 0 "csr"%string
               (Some (rho / 2)) g) by lia.
    change (Z.to_nat 0 * Z.to_nat 0)%nat with 0%nat.
    rewrite !advance_0. reflexivity.
Qed.

(** For every order below 2, [rand_mix] raises the [ValueError] of the
    empty range of the auxiliary dimension, before anything else is
    sampled. *)
Theorem rand_mix_small_order
  (sp_random : Z -> Z -> string -> R -> M (list (nat * nat)))
  (d : Z) (g : rng) :
  (d <= 1)%Z -> rand_mix sp_random d g = Raise ValueError.
Proof.
  intros Hd. unfold rand_mix, bind, randint.
  replace (2 <? d + 1)%Z with false by (symmetry; apply Z.ltb_ge; lia).
  reflexivity.
Qed.

Lemma rand_mix_small_order_witness :
  (0 <= 1)%Z /\ rand_mix sp_empty 0 (rng_const 1 0) = Raise ValueError.
Proof.
  split; [lia |].
  apply (rand_mix_small_order sp_empty 0 (rng_const 1 0)). lia.
Defined.
